(** * GO-PCA: a shallow embedding of [gopca/common.py] and
      [gopca/go_pca_objects.py], and the properties of its q-value
      correction, signature-expression scores and data records.

    The Python code computes on [numpy.float64].  The embedding is written
    over an interface [Float64Ops] of the arithmetic the code uses, with two
    instances: IEEE binary64 (Rocq's primitive floats), on which every
    function runs, and the real numbers, whose comparison is the total
    order that the theorems on the order of the q-values assume.  What is
    proved of the values themselves is proved on binary64, from the
    specification of its operations. *)

From Stdlib Require Import ZArith Reals Lra Floats Ascii String.
From stdpp Require Import base option list gmap strings sorting pretty.

(** ** Python outcomes: a call returns a value or raises. *)

Inductive exn : Set :=
  | AssertionError
  | ValueError
  | IndexError
  | KeyError.

Inductive outcome (A : Type) : Type :=
  | Returns (a : A)
  | Raises (e : exn).

Arguments Returns {A} a.
Arguments Raises {A} e.

#[export] Instance outcome_ret : MRet outcome := λ A a, Returns a.

#[export] Instance outcome_bind : MBind outcome := λ A B k m,
  match m with
  | Returns a => k a
  | Raises e => Raises e
  end.

(** [assert c] *)
Definition py_assert (c : bool) : outcome () :=
  if c then Returns () else Raises AssertionError.

(** [l[i]] for a non-negative [i]: IndexError out of range. *)
Definition getitem {A} (l : list A) (i : nat) : outcome A :=
  match l !! i with
  | Some x => Returns x
  | None => Raises IndexError
  end.

(** [l[i] = x] for a non-negative [i]: IndexError out of range. *)
Definition setitem {A} (l : list A) (i : nat) (x : A) : outcome (list A) :=
  if decide (i < length l) then Returns (<[i:=x]> l) else Raises IndexError.

(** ** The arithmetic of [numpy.float64] *)

Class Float64Ops (num : Type) := {
  f_zero : num;
  f_one : num;
  f_add : num → num → num;
  f_sub : num → num → num;
  f_mul : num → num → num;
  f_div : num → num → num;
  f_sqrt : num → num;
  f_abs : num → num;
  f_ltb : num → num → bool;
  (** conversion of a Python int (here always a count) to a float *)
  f_of_nat : nat → num;
  (** the literal [1.4826] *)
  f_mad_scale : num;
}.

(** IEEE binary64: division by zero and invalid operations give
    [infinity] and [nan]; nothing raises (numpy only warns). *)
#[export] Instance float64 : Float64Ops float := {|
  f_zero := 0%float;
  f_one := 1%float;
  f_add := PrimFloat.add;
  f_sub := PrimFloat.sub;
  f_mul := PrimFloat.mul;
  f_div := PrimFloat.div;
  f_sqrt := PrimFloat.sqrt;
  f_abs := PrimFloat.abs;
  f_ltb := PrimFloat.ltb;
  f_of_nat := λ n, PrimFloat.of_uint63 (Uint63.of_Z (Z.of_nat n));
  f_mad_scale := 0x1.7b8bac710cb29p+0%float;
|}.

(** Exact real arithmetic: no rounding, no signed zero, no NaN.  It serves
    the theorems that assume a total order of the values compared. *)
#[export] Instance exact_real : Float64Ops R := {|
  f_zero := 0%R;
  f_one := 1%R;
  f_add := Rplus;
  f_sub := Rminus;
  f_mul := Rmult;
  f_div := Rdiv;
  f_sqrt := R_sqrt.sqrt;
  f_abs := Rabs;
  f_ltb := λ x y, if Rlt_dec x y then true else false;
  f_of_nat := INR;
  f_mad_scale := (7413 / 5000)%R;
|}.

(** [x <= y] and [x < y] as the comparison [f_ltb] decides them. *)
Definition f_le {num : Type} `{!Float64Ops num} (x y : num) : Prop := f_ltb y x = false.
Definition f_lt {num : Type} `{!Float64Ops num} (x y : num) : Prop := f_ltb x y = true.

(** Python's [min(x, y)]: [y] when [y < x], else [x]. *)
Definition py_min {num : Type} `{!Float64Ops num} (x y : num) : num :=
  if f_ltb y x then y else x.

(** ** [common.get_qvalues] *)

(** [np.argsort(pvals, kind='mergesort')]: the stable ascending sort of the
    indices by value.  numpy's merge sort is library code; any stable sort
    returns the same permutation, and it is written here as the insertion
    of the indices from the last to the first, each before the first entry
    that is not smaller. *)
Fixpoint insert_stable {num : Type} `{!Float64Ops num} (x : nat * num) (l : list (nat * num))
  : list (nat * num) :=
  match l with
  | [] => [x]
  | y :: l' => if f_ltb y.2 x.2 then y :: insert_stable x l' else x :: y :: l'
  end.

Definition argsort {num : Type} `{!Float64Ops num} (pvals : list num) : list nat :=
  fst <$> foldr insert_stable [] (zip (seq 0 (length pvals)) pvals).

(** The loop [for i in a: ...] with its counters [s] and [q]. *)
Fixpoint qvalues_loop {num : Type} `{!Float64Ops num} (pvals : list num) (pi_zero : num)
    (n : nat) (a : list nat) (s : nat) (q : num) (qvals : list num)
  : outcome (list num) :=
  match a with
  | [] => Returns qvals
  | i :: a' =>
      p ← getitem pvals i;
      let q := py_min (f_div (f_mul (f_mul pi_zero p) (f_of_nat n)) (f_of_nat s)) q in
      qvals ← setitem qvals i q;
      qvalues_loop pvals pi_zero n a' (S s) q qvals
  end.

(** [np.empty] leaves the contents unspecified; every entry is overwritten
    by the loop, and zeros stand for them here. *)
Definition get_qvalues {num : Type} `{!Float64Ops num} (pvals : list num) (pi_zero : num)
  : outcome (list num) :=
  let n := length pvals in
  let qvals := replicate n f_zero in
  let a := argsort pvals in
  let a := reverse a in
  qvalues_loop pvals pi_zero n a 1 f_one qvals.

(** ** numpy arrays and reductions *)

(** An [ndarray]: its shape and its items in row-major order. *)
Record ndarray (num : Type) := NDArray {
  shape : list nat;
  data : list num;
}.

Arguments NDArray {num} shape data.
Arguments shape {num} _.
Arguments data {num} _.

Definition map_data {num : Type} (f : num → num) (a : ndarray num) : ndarray num :=
  NDArray (shape a) (f <$> data a).

(** [np.sum(x)] *)
Definition np_sum {num : Type} `{!Float64Ops num} (x : list num) : num :=
  foldl f_add f_zero x.

(** [np.mean(x)]: the sum over the number of items. *)
Definition np_mean {num : Type} `{!Float64Ops num} (x : list num) : num :=
  f_div (np_sum x) (f_of_nat (length x)).

(** [np.std(x, ddof=ddof)]: the deviations from the mean are squared and
    summed, the sum is divided by [max(n - ddof, 0)] and rooted. *)
Definition np_std {num : Type} `{!Float64Ops num} (x : list num) (ddof : nat) : num :=
  let arrmean := np_mean x in
  let d := (λ v, f_sub v arrmean) <$> x in
  let d := (λ v, f_mul v v) <$> d in
  f_sqrt (f_div (np_sum d) (f_of_nat (length x - ddof))).

(** Ascending sort of the values, as [np.median] needs it. *)
Fixpoint insert_asc {num : Type} `{!Float64Ops num} (x : num) (l : list num) : list num :=
  match l with
  | [] => [x]
  | y :: l' => if f_ltb y x then y :: insert_asc x l' else x :: y :: l'
  end.

Definition sort_asc {num : Type} `{!Float64Ops num} (l : list num) : list num :=
  foldr insert_asc [] l.

(** [np.median(x)]: the mean of the middle item, or of the two middle
    items, of the sorted values. *)
Definition np_median {num : Type} `{!Float64Ops num} (x : list num) : num :=
  let part := sort_asc x in
  let sz := length x in
  let index := sz / 2 in
  if Nat.odd sz
  then np_mean (take 1 (drop index part))
  else np_mean (take (index + 1 - (index - 1)) (drop (index - 1) part)).

(** [p, n = E.shape] *)
Definition shape2 {num : Type} (E : ndarray num) : outcome (nat * nat) :=
  match shape E with
  | [p; n] => Returns (p, n)
  | _ => Raises ValueError
  end.

(** [np.zeros((p, n))] *)
Definition np_zeros2 {num : Type} `{!Float64Ops num} (p n : nat) : ndarray num :=
  NDArray [p; n] (replicate (p * n) f_zero).

(** [A[i,:]] read *)
Definition row_get {num : Type} (A : ndarray num) (i : nat) : outcome (list num) :=
  '(p, n) ← shape2 A;
  if decide (i < p) then Returns (take n (drop (i * n) (data A)))
  else Raises IndexError.

(** [A[i,:] = v] *)
Definition row_set {num : Type} (A : ndarray num) (i : nat) (v : list num)
  : outcome (ndarray num) :=
  '(p, n) ← shape2 A;
  if decide (i < p) then
    if decide (length v = n) then
      Returns (NDArray (shape A)
                 (take (i * n) (data A) ++ v ++ drop (i * n + n) (data A)))
    else Raises ValueError
  else Raises IndexError.

(** [A[i,:] -= x] and [A[i,:] /= x] *)
Definition row_isub {num : Type} `{!Float64Ops num} (A : ndarray num) (i : nat) (x : num)
  : outcome (ndarray num) :=
  r ← row_get A i; row_set A i ((λ v, f_sub v x) <$> r).

Definition row_idiv {num : Type} `{!Float64Ops num} (A : ndarray num) (i : nat) (x : num)
  : outcome (ndarray num) :=
  r ← row_get A i; row_set A i ((λ v, f_div v x) <$> r).

(** [np.mean(A, axis=0)] *)
Definition np_mean_axis0 {num : Type} `{!Float64Ops num} (A : ndarray num)
  : outcome (list num) :=
  '(p, n) ← shape2 A;
  Returns ((λ j, f_div (np_sum ((λ i, default f_zero (data A !! (i * n + j))) <$> seq 0 p))
                       (f_of_nat p)) <$> seq 0 n).

(** ** [common.get_standardized], on a store of arrays *)

Abbreviation loc := positive (only parsing).

(** The arrays that exist, by reference. *)
Abbreviation heap num := (gmap positive (ndarray num)) (only parsing).

(** [e.copy()]: a new array with the same items. *)
Definition np_copy {num : Type} (e : loc) (h : heap num) : option (loc * heap num) :=
  a ← h !! e;
  let e' := fresh (dom h) in
  Some (e', <[e' := a]> h).

(** [np.mean(e)] and [np.std(e, ddof=ddof)] of the array at [e] *)
Definition mean_at {num : Type} `{!Float64Ops num} (e : loc) (h : heap num) : option num :=
  a ← h !! e; Some (np_mean (data a)).

Definition std_at {num : Type} `{!Float64Ops num} (e : loc) (ddof : nat) (h : heap num)
  : option num :=
  a ← h !! e; Some (np_std (data a) ddof).

(** [e -= x] and [e /= x]: the array at [e] is updated in place. *)
Definition np_isub {num : Type} `{!Float64Ops num} (e : loc) (x : num) (h : heap num)
  : option (heap num) :=
  a ← h !! e; Some (<[e := map_data (λ v, f_sub v x) a]> h).

Definition np_idiv {num : Type} `{!Float64Ops num} (e : loc) (x : num) (h : heap num)
  : option (heap num) :=
  a ← h !! e; Some (<[e := map_data (λ v, f_div v x) a]> h).

Definition get_standardized {num : Type} `{!Float64Ops num} (e : loc) (h : heap num)
  : option (loc * heap num) :=
  '(e, h) ← np_copy e h;
  m ← mean_at e h;
  h ← np_isub e m h;
  sd ← std_at e 1 h;
  h ← np_idiv e sd h;
  Some (e, h).

(** ** [common.get_signature_expression] *)

(** [genes.index(g)]: the first position of [g], ValueError when absent. *)
Fixpoint list_index (genes : list string) (g : string) : outcome nat :=
  match genes with
  | [] => Raises ValueError
  | x :: genes' =>
      if decide (x = g) then Returns 0
      else idx ← list_index genes' g; Returns (S idx)
  end.

(** The body of [for i,g in enumerate(sig_genes)], from position [i] on. *)
Fixpoint signature_rows {num : Type} `{!Float64Ops num} (genes : list string)
    (E : ndarray num) (i : nat) (sig_genes : list string) (Smat : ndarray num)
  : outcome (ndarray num) :=
  match sig_genes with
  | [] => Returns Smat
  | g :: sig_genes' =>
      idx ← list_index genes g;
      r ← row_get E idx;
      Smat ← row_set Smat i r;
      r ← row_get Smat i;
      Smat ← row_isub Smat i (np_mean r);
      r ← row_get Smat i;
      Smat ← row_idiv Smat i (np_std r 1);
      signature_rows genes E (S i) sig_genes' Smat
  end.

Definition get_signature_expression {num : Type} `{!Float64Ops num}
    (genes : list string) (E : ndarray num) (sig_genes : list string)
  : outcome (list num) :=
  let p_sig := length sig_genes in
  '(p, n) ← shape2 E;
  let Smat := np_zeros2 p_sig n in
  Smat ← signature_rows genes E 0 sig_genes Smat;
  sig ← np_mean_axis0 Smat;
  Returns sig.

(** ** [common.get_signature_expression_robust] *)

(** Python's [bisect.bisect_left(a, x)]: the loop
    [while lo < hi: mid = (lo+hi)//2; if a[mid] < x: lo = mid+1 else: hi = mid].
    [fuel] bounds the number of iterations; [hi - lo] of them are enough. *)
Fixpoint bisect_left_loop (fuel : nat) (a : list string) (x : string) (lo hi : nat) : nat :=
  match fuel with
  | 0 => lo
  | S fuel' =>
      if decide (lo < hi) then
        let mid := (lo + hi) / 2 in
        match a !! mid with
        | Some y =>
            if String.ltb y x then bisect_left_loop fuel' a x (mid + 1) hi
            else bisect_left_loop fuel' a x lo mid
        | None => lo
        end
      else lo
  end.

Definition bisect_left (a : list string) (x : string) : nat :=
  bisect_left_loop (length a) a x 0 (length a).

(** [genometools.misc.bisect_index(a, x)] (library code): the position
    binary search finds, ValueError when [x] is not there. *)
Definition bisect_index (a : list string) (x : string) : outcome nat :=
  let i := bisect_left a x in
  match a !! i with
  | Some y => if decide (y = x) then Returns i else Raises ValueError
  | None => Raises ValueError
  end.

Fixpoint signature_rows_robust {num : Type} `{!Float64Ops num} (genes : list string)
    (E : ndarray num) (i : nat) (sig_genes : list string) (Smat : ndarray num)
  : outcome (ndarray num) :=
  match sig_genes with
  | [] => Returns Smat
  | g :: sig_genes' =>
      idx ← bisect_index genes g;
      r ← row_get E idx;
      Smat ← row_set Smat i r;
      r ← row_get Smat i;
      let med := np_median r in
      r ← row_get Smat i;
      let mad := np_median (f_abs <$> ((λ v, f_sub v med) <$> r)) in
      let std := f_mul f_mad_scale mad in
      Smat ← row_isub Smat i med;
      Smat ← row_idiv Smat i std;
      signature_rows_robust genes E (S i) sig_genes' Smat
  end.

Definition get_signature_expression_robust {num : Type} `{!Float64Ops num}
    (genes : list string) (E : ndarray num) (sig_genes : list string)
  : outcome (list num) :=
  let p_sig := length sig_genes in
  '(p, n) ← shape2 E;
  let Smat := np_zeros2 p_sig n in
  Smat ← signature_rows_robust genes E 0 sig_genes Smat;
  sig ← np_mean_axis0 Smat;
  Returns sig.

(** ** [go_pca_objects.GOPCAConfig] *)

Definition valid_attrs : gset string :=
  list_to_set ["mHG_X_frac"; "mHG_X_min"; "mHG_L"; "pval_thresh";
               "mfe_pval_thresh"; "mfe_thresh"; "disable_local_filter";
               "disable_global_filter"].

(** The order of Python's [sorted] on strings. *)
Definition str_le (a b : string) : Prop := String.leb a b = true.

#[export] Instance str_le_dec : RelDecision str_le.
Proof. intros a b. unfold str_le. apply _. Defined.

Definition sorted (l : list string) : list string := merge_sort str_le l.

Definition dquote : string := String "034"%char EmptyString.

(** The line printed for an unknown attribute [k]. *)
Definition unknown_warning (k : string) : string :=
  "Warning: Config attribute " +:+ dquote +:+ k +:+ dquote +:+ " unknown (will be ignored).".

(** [kwargs[k]] *)
Definition dict_get {V : Type} (kwargs : gmap string V) (k : string) : outcome V :=
  match kwargs !! k with
  | Some v => Returns v
  | None => Raises KeyError
  end.

(** [for k in ks: assert k in supplied_attrs] *)
Fixpoint assert_supplied (supplied_attrs : gset string) (ks : list string) : outcome () :=
  match ks with
  | [] => Returns ()
  | k :: ks' =>
      _ ← py_assert (bool_decide (k ∈ supplied_attrs));
      assert_supplied supplied_attrs ks'
  end.

(** [dict([k,kwargs[k]] for k in ks)] *)
Fixpoint dict_of_keys {V : Type} (kwargs : gmap string V) (ks : list string)
  : outcome (gmap string V) :=
  match ks with
  | [] => Returns ∅
  | k :: ks' =>
      v ← dict_get kwargs k;
      d ← dict_of_keys kwargs ks';
      Returns (<[k := v]> d)
  end.

(** A configuration is its attribute dictionary [self.__dict__]. *)
Record GOPCAConfig (V : Type) := Config { config_dict : gmap string V }.

Arguments Config {V} _.
Arguments config_dict {V} _.

(** [GOPCAConfig.__init__] on the keyword arguments [kwargs]: the lines printed, and the object
    built or the exception raised. *)
Definition GOPCAConfig_init {V : Type} (kwargs : gmap string V)
  : list string * outcome (GOPCAConfig V) :=
  let supplied_attrs := dom kwargs in
  let unknown_attrs := supplied_attrs ∖ valid_attrs in
  let printed := unknown_warning <$> sorted (elements unknown_attrs) in
  (printed,
   _ ← assert_supplied supplied_attrs (elements valid_attrs);
   kwargs ← dict_of_keys kwargs (elements valid_attrs);
   Returns (Config (kwargs ∪ ∅))).

(** ** [go_pca_objects.GOPCASignature] *)

(** Decimal digits of a natural number and of an integer, as ["%d"] prints. *)
Definition format_d (z : Z) : string := pretty z.

(** ["%.1f" % x]: the exact binary value rounded to one decimal, ties to
    even. *)
Definition round_half_even (num den : Z) : Z :=
  let q := (num / den)%Z in
  let r := (2 * (num mod den))%Z in
  if (r <? den)%Z then q
  else if (den <? r)%Z then (q + 1)%Z
  else if Z.even q then q else (q + 1)%Z.

Definition format_tenths (neg : bool) (t : Z) : string :=
  (if neg then "-" else "") +:+ pretty (t / 10)%Z +:+ "." +:+ pretty (t mod 10)%Z.

Definition format_1f (x : float) : string :=
  match Prim2SF x with
  | S754_nan => "nan"
  | S754_infinity neg => if neg then "-inf" else "inf"
  | S754_zero neg => format_tenths neg 0
  | S754_finite neg m e =>
      let t := match e with
               | Zneg k => round_half_even (10 * Zpos m) (2 ^ Zpos k)
               | _ => (10 * Zpos m * 2 ^ e)%Z
               end in
      format_tenths neg t
  end.

Section Signature.
(** The enrichment result a signature is based on is an object of a class
    defined outside these files; its type and its [repr] are taken as
    given. *)
Context {enrichment : Type} (enrichment_repr : enrichment → string).

Record GOPCASignature := Signature {
  sig_genes : gset string;
  sig_pc : Z;
  sig_mfe : float;
  sig_enrichment : enrichment;
  sig_label : string;
}.

Definition GOPCASignature_repr (self : GOPCASignature) : string :=
  "<GOPCASignature: label=" +:+ dquote +:+ sig_label self +:+ dquote
    +:+ ", pc=" +:+ format_d (sig_pc self)
    +:+ ", mfe=" +:+ format_1f (sig_mfe self)
    +:+ "; " +:+ enrichment_repr (sig_enrichment self) +:+ ">".
End Signature.

Arguments GOPCASignature enrichment : clear implicits.
Arguments Signature {enrichment} _ _ _ _ _.

(** ** Python values, as far as the constructors inspect them *)

#[warnings="-register-all"]
Inductive pyobj (V enrichment : Type) : Type :=
  | PyNone
  | PyStr (s : string)
  | PyList (l : list (pyobj V enrichment))
  | PyTuple (l : list (pyobj V enrichment))
  | PyArray (a : ndarray float)
  | PyConfig (c : GOPCAConfig V)
  | PySignature (s : GOPCASignature enrichment).

Arguments PyNone {V enrichment}.
Arguments PyStr {V enrichment} s.
Arguments PyList {V enrichment} l.
Arguments PyTuple {V enrichment} l.
Arguments PyArray {V enrichment} a.
Arguments PyConfig {V enrichment} c.
Arguments PySignature {V enrichment} s.

Section Objects.
Context {V enrichment : Type} (enrichment_repr : enrichment → string).

Local Abbreviation pyobj := (pyobj V enrichment).

(** [GOPCASignature.__eq__(self, other)] *)
Definition GOPCASignature_eq (self : GOPCASignature enrichment) (other : pyobj) : bool :=
  match other with
  | PySignature other =>
      if decide (GOPCASignature_repr enrichment_repr self
                 = GOPCASignature_repr enrichment_repr other)
      then true else false
  | _ => false
  end.

(** [isinstance] tests *)
Definition is_config (o : pyobj) : bool :=
  match o with PyConfig _ => true | _ => false end.
Definition is_list (o : pyobj) : bool :=
  match o with PyList _ => true | _ => false end.
Definition is_tuple (o : pyobj) : bool :=
  match o with PyTuple _ => true | _ => false end.
Definition is_ndarray (o : pyobj) : bool :=
  match o with PyArray _ => true | _ => false end.
Definition is_signature (o : pyobj) : bool :=
  match o with PySignature _ => true | _ => false end.

(** The items of a list or tuple: [len(o)], [tuple(o)], [for s in o]. *)
Definition items (o : pyobj) : outcome (list pyobj) :=
  match o with
  | PyList l | PyTuple l => Returns l
  | _ => Raises ValueError
  end.

(** [o.shape[i]] *)
Definition shape_at (o : pyobj) (i : nat) : outcome nat :=
  match o with
  | PyArray a => getitem (shape a) i
  | _ => Raises ValueError
  end.

(** [for s in signatures: assert isinstance(s,GOPCASignature)] *)
Fixpoint assert_signatures (l : list pyobj) : outcome () :=
  match l with
  | [] => Returns ()
  | s :: l' => _ ← py_assert (is_signature s); assert_signatures l'
  end.

Record GOPCAResult := Result {
  res_config : pyobj;
  res_genes : list pyobj;
  res_samples : list pyobj;
  res_W : pyobj;
  res_signatures : list pyobj;
  res_S : pyobj;
}.

(** [GOPCAResult.__init__(self,config,genes,samples,W,signatures,S)] *)
Definition GOPCAResult_init (config genes samples W signatures S_ : pyobj)
  : outcome GOPCAResult :=
  _ ← py_assert (is_config config);
  _ ← py_assert (is_list genes || is_tuple genes);
  _ ← py_assert (is_list samples || is_tuple samples);
  _ ← py_assert (is_ndarray W);
  _ ← py_assert (is_list signatures || is_tuple signatures);
  sigs ← items signatures;
  _ ← assert_signatures sigs;
  _ ← py_assert (is_ndarray S_);
  w0 ← shape_at W 0;
  gs ← items genes;
  _ ← py_assert (bool_decide (w0 = length gs));
  s0 ← shape_at S_ 0;
  _ ← py_assert (bool_decide (s0 = length sigs));
  s1 ← shape_at S_ 1;
  ss ← items samples;
  _ ← py_assert (bool_decide (s1 = length ss));
  Returns (Result config gs ss W sigs S_).

(** The shape conditions of the constructor, on its arguments. *)
Definition shapes_agree (genes samples W signatures S_ : pyobj) : Prop :=
  ∃ gs ss sigs,
    items genes = Returns gs ∧ items samples = Returns ss
    ∧ items signatures = Returns sigs
    ∧ shape_at W 0 = Returns (length gs)
    ∧ shape_at S_ 0 = Returns (length sigs)
    ∧ shape_at S_ 1 = Returns (length ss).
End Objects.

(** ** The steps and values of the computations, for the statements *)

(** The candidate value of the step of [get_qvalues] with counter [s] at
    the p-value [p]. *)
Definition candidate {num : Type} `{!Float64Ops num} (pi_zero : num) (n : nat) (p : num)
    (s : nat) : num :=
  f_div (f_mul (f_mul pi_zero p) (f_of_nat n)) (f_of_nat s).

(** What the loop of [get_qvalues] assigns: the index, the counter [s] and
    the value [q] of each step, in the order of the walk. *)
Fixpoint qvalues_trace {num : Type} `{!Float64Ops num} (pvals : list num) (pi_zero : num)
    (n : nat) (a : list nat) (s : nat) (q : num) : list (nat * nat * num) :=
  match a with
  | [] => []
  | i :: a' =>
      let q' := py_min (candidate pi_zero n (default f_zero (pvals !! i)) s) q in
      (i, s, q') :: qvalues_trace pvals pi_zero n a' (S s) q'
  end.

Definition assign {num : Type} (qvals : list num) (t : nat * nat * num) : list num :=
  <[t.1.1 := t.2]> qvals.

(** The steps of the walk of [get_qvalues] on [pvals]. *)
Definition visit_steps {num : Type} `{!Float64Ops num} (pvals : list num) (pi_zero : num)
  : list (nat * nat * num) :=
  qvalues_trace pvals pi_zero (length pvals) (reverse (argsort pvals)) 1 f_one.

(** The vector [get_qvalues] builds. *)
Definition qvalues_of {num : Type} `{!Float64Ops num} (pvals : list num) (pi_zero : num)
  : list num :=
  foldl assign (replicate (length pvals) f_zero) (visit_steps pvals pi_zero).

(** The order of a stable ascending sort: [x] may stand before [y] when its
    value is not larger, and among equal values when its index is smaller. *)
Definition stable_le {num : Type} `{!Float64Ops num} (x y : nat * num) : Prop :=
  f_le x.2 y.2 ∧ (f_le y.2 x.2 → x.1 < y.1).

Definition sorted_pairs {num : Type} `{!Float64Ops num} (pvals : list num)
  : list (nat * num) :=
  foldr insert_stable [] (zip (seq 0 (length pvals)) pvals).

(** The values [get_standardized] computes from the items [x]. *)
Definition standardized {num : Type} `{!Float64Ops num} (x : list num) : list num :=
  let x := (λ v, f_sub v (np_mean x)) <$> x in
  (λ v, f_div v (np_std x 1)) <$> x.

(** The values the robust calculator computes from a row [x]. *)
Definition standardized_robust {num : Type} `{!Float64Ops num} (x : list num) : list num :=
  let med := np_median x in
  let mad := np_median (f_abs <$> ((λ v, f_sub v med) <$> x)) in
  let std := f_mul f_mad_scale mad in
  (λ v, f_div v std) <$> ((λ v, f_sub v med) <$> x).

(** A [p] by [n] array with all its items. *)
Definition well_shaped {num : Type} (A : ndarray num) (p n : nat) : Prop :=
  shape A = [p; n] ∧ length (data A) = p * n.

(** Row [idx] of [E], with [n] columns. *)
Definition row_of {num : Type} (E : ndarray num) (n idx : nat) : list num :=
  take n (drop (idx * n) (data E)).

(** The mean over the rows [rows], column by column, of a matrix with [n]
    columns: what [np.mean(S, axis=0)] returns for the array with these
    rows. *)
Definition column_means {num : Type} `{!Float64Ops num} (rows : list (list num)) (n : nat)
  : list num :=
  (λ j, f_div (np_sum ((λ r, default f_zero (r !! j)) <$> rows))
              (f_of_nat (length rows))) <$> seq 0 n.

(** ** [common.variance_filter] *)

(** [np.var(x, ddof=ddof)]: as [np.std], without the root. *)
Definition np_var {num : Type} `{!Float64Ops num} (x : list num) (ddof : nat) : num :=
  let arrmean := np_mean x in
  let d := (λ v, f_sub v arrmean) <$> x in
  let d := (λ v, f_mul v v) <$> d in
  f_div (np_sum d) (f_of_nat (length x - ddof)).

(** [np.var(E, axis=1, ddof=1)] of a two-dimensional [E] with [p] rows of
    [n] items. *)
Definition row_variances {num : Type} `{!Float64Ops num} (E : ndarray num) (p n : nat)
  : list num :=
  (λ i, np_var (take n (drop (i * n) (data E))) 1) <$> seq 0 p.

(** [sel[idxs] = True] *)
Definition mask_set (sel : list bool) (idxs : list nat) : list bool :=
  foldl (λ sel i, <[i := true]> sel) sel idxs.

(** [np.nonzero(sel)[0]]: the positions that hold [True], ascending. *)
Definition np_nonzero (sel : list bool) : list nat :=
  filter (λ i, sel !! i = Some true) (seq 0 (length sel)).

(** [[genes[i] for i in sel]] *)
Fixpoint getitems {A} (genes : list A) (sel : list nat) : outcome (list A) :=
  match sel with
  | [] => Returns []
  | i :: sel' =>
      g ← getitem genes i;
      gs ← getitems genes sel';
      Returns (g :: gs)
  end.

(** [E[sel,:]] for positions [sel] within the [p] rows of [E] *)
Definition take_rows {num : Type} (E : ndarray num) (n : nat) (sel : list nat)
  : ndarray num :=
  NDArray [length sel; n] (concat ((λ i, take n (drop (i * n) (data E))) <$> sel)).

(** [variance_filter(genes,E,top)] for [top >= 0].  numpy's default
    [argsort] is not a stable sort and the order it gives to equal
    variances is its own; the sort is the parameter [np_argsort]. *)
Definition variance_filter {num : Type} `{!Float64Ops num}
    (np_argsort : list num → list nat)
    (genes : list string) (E : ndarray num) (top : nat)
  : outcome (list string * ndarray num) :=
  '(p, m) ← shape2 E;
  let a := np_argsort (row_variances E p m) in
  let a := reverse a in
  let n := p in
  let sel := replicate n false in
  let sel := mask_set sel (take top a) in
  let sel := np_nonzero sel in
  genes ← getitems genes sel;
  let E := take_rows E m sel in
  Returns (genes, E).

(** What [np.argsort] guarantees, whatever its algorithm: a permutation of
    the positions along which the values do not decrease. *)
Definition argsort_correct {num : Type} `{!Float64Ops num}
    (np_argsort : list num → list nat) : Prop :=
  ∀ l : list num,
    np_argsort l ≡ₚ seq 0 (length l)
    ∧ ∀ k1 k2 i j x y,
        k1 < k2 → np_argsort l !! k1 = Some i → np_argsort l !! k2 = Some j →
        l !! i = Some x → l !! j = Some y → f_le x y.

(** ** [GOPCAConfig.__repr__], [__str__] and [__hash__] *)

(** [sep.join(l)] *)
Fixpoint str_join (sep : string) (l : list string) : string :=
  match l with
  | [] => ""
  | [s] => s
  | s :: l' => s +:+ sep +:+ str_join sep l'
  end.

(** [['%s=%s' %(k,getattr(self,str(k))) for k in ks]]; [None] stands for
    the AttributeError of an attribute that is not there.  [str_of] is
    [str] on the values. *)
Fixpoint attr_items {V : Type} (str_of : V → string) (self : GOPCAConfig V)
    (ks : list string) : option (list string) :=
  match ks with
  | [] => Some []
  | k :: ks' =>
      v ← config_dict self !! k;
      items ← attr_items str_of self ks';
      Some ((k +:+ "=" +:+ str_of v) :: items)
  end.

Definition GOPCAConfig_repr {V : Type} (str_of : V → string) (self : GOPCAConfig V)
  : option string :=
  items ← attr_items str_of self (sorted (elements valid_attrs));
  Some ("<GOPCAConfig object (" +:+ str_join "; " items +:+ ")>").

Definition GOPCAConfig_str {V : Type} (str_of : V → string) (self : GOPCAConfig V)
  : option string :=
  items ← attr_items str_of self (sorted (elements valid_attrs));
  Some ("<GOPCAConfig object with attributes: " +:+ str_join ", " items +:+ ">").

(** [hash(repr(self))], for Python's [hash] on strings, [py_hash]. *)
Definition GOPCAConfig_hash {V : Type} (py_hash : string → Z) (str_of : V → string)
    (self : GOPCAConfig V) : option Z :=
  py_hash <$> GOPCAConfig_repr str_of self.

(** ** [GOPCASignature]: construction, properties and display *)

(** [hash(repr(self))], for Python's [hash] on strings, [py_hash]. *)
Definition GOPCASignature_hash {enrichment : Type} (py_hash : string → Z)
    (enrichment_repr : enrichment → string) (self : GOPCASignature enrichment) : Z :=
  py_hash (GOPCASignature_repr enrichment_repr self).

(** The attributes of the enrichment object that a signature reads: the
    term (a tuple of strings), the counts [k], [K] and [N], the ranks and
    the p-value. *)
Record Enrichment := {
  enr_term : list string;
  enr_k : Z;
  enr_K : Z;
  enr_N : Z;
  enr_ranks : list Z;
  enr_pval : float;
}.

(** [l[i]] for any integer [i]: a negative index counts from the end. *)
Definition py_index {A} (l : list A) (i : Z) : outcome A :=
  let len := Z.of_nat (length l) in
  if (0 <=? i)%Z then getitem l (Z.to_nat i)
  else if (- len <=? i)%Z then getitem l (Z.to_nat (len + i))
  else Raises IndexError.

(** [GOPCASignature.__init__(self,genes,pc,mfe,enrichment,label=None)] *)
Definition GOPCASignature_init (genes : list string) (pc : Z) (mfe : float)
    (enrichment : Enrichment) (label : option string)
  : outcome (GOPCASignature Enrichment) :=
  let genes : gset string := list_to_set genes in
  label ← match label with
          | None =>
              let enr := enrichment in
              t2 ← getitem (enr_term enr) 2;
              t3 ← getitem (enr_term enr) 3;
              Returns (t2 +:+ ": " +:+ t3 +:+ " (" +:+ format_d pc +:+ ":"
                       +:+ format_d (enr_k enr) +:+ "/" +:+ format_d (enr_K enr) +:+ ")")
          | Some label => Returns label
          end;
  Returns (Signature genes pc mfe enrichment label).

(** The properties [pval], [k], [K], [n] and [N]. *)
Definition GOPCASignature_pval (self : GOPCASignature Enrichment) : float :=
  enr_pval (sig_enrichment self).

Definition GOPCASignature_k (self : GOPCASignature Enrichment) : Z :=
  Z.of_nat (size (sig_genes self)).

Definition GOPCASignature_K (self : GOPCASignature Enrichment) : Z :=
  enr_K (sig_enrichment self).

Definition GOPCASignature_n (self : GOPCASignature Enrichment) : outcome Z :=
  py_index (enr_ranks (sig_enrichment self)) (GOPCASignature_k self - 1).

Definition GOPCASignature_N (self : GOPCASignature Enrichment) : Z :=
  enr_N (sig_enrichment self).

(** [re.sub(pat, rep, s)] for a pattern without special characters: every
    occurrence of [pat], from the left and without overlap, becomes [rep].
    [skip] counts the characters of an occurrence still to pass. *)
Fixpoint str_replace_from (pat rep : string) (skip : nat) (s : string) : string :=
  match s with
  | EmptyString => EmptyString
  | String c s' =>
      match skip with
      | S skip' => str_replace_from pat rep skip' s'
      | 0 =>
          if String.prefix pat s
          then rep +:+ str_replace_from pat rep (String.length pat - 1) s'
          else String c (str_replace_from pat rep 0 s')
      end
  end.

Definition str_replace (pat rep s : string) : string := str_replace_from pat rep 0 s.

Definition abbrev : list (string * string) :=
  [("positive ", "pos. "); ("negative ", "neg. "); ("interferon-", "IFN-");
   ("proliferation", "prolif."); ("signaling", "signal.")].

(** [for abb in self.abbrev: term_name = re.sub(abb[0],abb[1],term_name)] *)
Definition abbreviate (term_name : string) : string :=
  foldl (λ term_name abb, str_replace abb.1 abb.2 term_name) term_name abbrev.

(** [s[:stop]] *)
Definition py_slice_to (s : string) (stop : Z) : string :=
  let len := Z.of_nat (String.length s) in
  let stop := if (stop <? 0)%Z then Z.max (len + stop) 0 else Z.min stop len in
  substring 0 (Z.to_nat stop) s.

(** The name of the term as [get_pretty_format] shows it. *)
Definition display_name (max_name_length : Z) (term_name : string) : string :=
  let term_name := abbreviate term_name in
  if ((0 <? max_name_length) && (max_name_length <? Z.of_nat (String.length term_name)))%Z
  then py_slice_to term_name (max_name_length - 3) +:+ "..."
  else term_name.

(** ["%.1e" % x]: one digit before and one after the point, the exact
    binary value rounded, ties to even, and an exponent of two digits at
    least. *)
Definition ge_pow10 (num den k : Z) : bool :=
  if (0 <=? k)%Z then (den * 10 ^ k <=? num)%Z else (den <=? num * 10 ^ (- k))%Z.

Fixpoint decimal_exponent (fuel : nat) (num den E : Z) : Z :=
  match fuel with
  | 0 => E
  | S fuel' =>
      if ge_pow10 num den (E + 1) then decimal_exponent fuel' num den (E + 1) else E
  end.

Definition format_exponent (E : Z) : string :=
  (if (E <? 0)%Z then "-" else "+")
  +:+ (if (Z.abs E <? 10)%Z then "0" else "") +:+ pretty (Z.abs E).

Definition format_1e (x : float) : string :=
  match Prim2SF x with
  | S754_nan => "nan"
  | S754_infinity neg => if neg then "-inf" else "inf"
  | S754_zero neg => (if neg then "-" else "") +:+ "0.0e+00"
  | S754_finite neg m e =>
      let num := match e with Zneg _ => Zpos m | _ => (Zpos m * 2 ^ e)%Z end in
      let den := match e with Zneg k => (2 ^ Zpos k)%Z | _ => 1%Z end in
      let E := decimal_exponent 800 num den (-400) in
      let t := if (E <=? 1)%Z then round_half_even (num * 10 ^ (1 - E)) den
               else round_half_even num (den * 10 ^ (E - 1)) in
      let '(t, E) := if (t =? 100)%Z then (10%Z, (E + 1)%Z) else (t, E) in
      (if neg then "-" else "") +:+ pretty (t / 10)%Z +:+ "." +:+ pretty (t mod 10)%Z
      +:+ "e" +:+ format_exponent E
  end.

(** [GOPCASignature.get_pretty_format] *)
Definition get_pretty_format (self : GOPCASignature Enrichment)
    (omit_acc nitty_gritty : bool) (max_name_length : Z) : outcome string :=
  let enr := sig_enrichment self in
  let term := enr_term enr in
  term_name ← getitem term 3;
  let term_name := display_name max_name_length term_name in
  t2 ← getitem term 2;
  let term_str := t2 +:+ ": " +:+ term_name in
  term_str ← (if negb omit_acc
              then t0 ← getitem term 0; Returns (term_str +:+ " (" +:+ t0 +:+ ")")
              else Returns term_str);
  let details :=
    if nitty_gritty
    then " [" +:+ format_d (GOPCASignature_k self) +:+ "/"
         +:+ format_d (GOPCASignature_K self) +:+ " genes,pc="
         +:+ format_d (sig_pc self) +:+ ",pval="
         +:+ format_1e (GOPCASignature_pval self) +:+ ",mfe="
         +:+ format_1f (sig_mfe self) +:+ "x]"
    else "" in
  Returns (term_str +:+ details).

(** Whether the walk of [get_qvalues] visits entry [j] before entry [i]:
    [j] has the larger p-value, or an equal one at a later position. *)
Definition visited_before {num : Type} `{!Float64Ops num} (pvals : list num) (i j : nat)
  : bool :=
  match pvals !! i, pvals !! j with
  | Some p_i, Some p_j => negb (f_ltb p_j p_i) && (f_ltb p_i p_j || (i <? j))
  | _, _ => false
  end.

(** The position of [g] that [genes.index(g)] returns, 0 when it raises. *)
Definition index_of (genes : list string) (g : string) : nat :=
  match list_index genes g with
  | Returns idx => idx
  | Raises _ => 0
  end.

(** ** Binary64 values *)

(** [0 <= x <= 1], which is false of NaN. *)
Definition in_unit (x : float) : Prop := (0 <=? x)%float = true ∧ (x <=? 1)%float = true.

(** [v] with the sign of a zero dropped: [-0.0] becomes [0.0]. *)
Definition positive_zero (v : float) : float :=
  match classify v with NZero => 0%float | _ => v end.

(** On the values of the specification of binary64: zero or positive
    (infinity included, NaN not); of sign [s] and not NaN; zero or finite. *)
Definition SF_nonneg (x : spec_float) : Prop := SFleb (S754_zero false) x = true.

Definition SF_signed (s : bool) (x : spec_float) : Prop :=
  match x with
  | S754_zero s' | S754_infinity s' | S754_finite s' _ _ => s' = s
  | S754_nan => False
  end.

Definition SF_finite (x : spec_float) : Prop :=
  match x with S754_zero _ | S754_finite _ _ _ => True | _ => False end.

(** ** The laws of a total order *)

(** The comparison is a strict weak order: so it is on the real numbers, and
    on binary64 as long as no NaN is compared. *)
Class OrderLaws (num : Type) `{!Float64Ops num} := {
  f_ltb_asym : ∀ x y : num, f_ltb x y = true → f_ltb y x = false;
  f_le_trans : ∀ x y z : num, f_le x y → f_le y z → f_le x z;
}.


(** * Properties *)

(** ** The real numbers satisfy the order laws *)

Lemma real_ltb_true (x y : R) : f_ltb x y = true ↔ (x < y)%R.
Proof. simpl. destruct (Rlt_dec x y); split; intros; (done || lra). Qed.

Lemma real_ltb_false (x y : R) : f_ltb x y = false ↔ (y <= x)%R.
Proof. simpl. destruct (Rlt_dec x y); split; intros; (done || lra). Qed.

#[export] Instance real_order_laws : OrderLaws R.
Proof.
  split; unfold f_le.
  - intros x y. rewrite real_ltb_true, real_ltb_false. lra.
  - intros x y z. rewrite !real_ltb_false. lra.
Qed.

(** ** Binary64: signs, order, counts and the neutral elements *)

(** Rounding keeps the sign: the mantissa stays non-negative through the
    shifts, so the rounded value is a zero, a finite value or an infinity of
    the sign given, never NaN. *)
Lemma shr_1_nonneg mrs : (0 ≤ shr_m mrs)%Z → (0 ≤ shr_m (shr_1 mrs))%Z.
Proof. destruct mrs as [[|[p|p|]|[p|p|]] r s]; simpl; lia. Qed.

Lemma iter_pos_shr_1_nonneg n mrs :
  (0 ≤ shr_m mrs)%Z → (0 ≤ shr_m (SpecFloat.iter_pos shr_1 n mrs))%Z.
Proof.
  revert mrs. induction n as [n IH|n IH|]; intros mrs Hm; simpl.
  - apply IH, IH. by apply shr_1_nonneg.
  - by apply IH, IH.
  - by apply shr_1_nonneg.
Qed.

Lemma shr_fexp_nonneg m e l :
  (0 ≤ m)%Z → (0 ≤ shr_m (shr_fexp prec emax m e l).1)%Z.
Proof.
  intros Hm. unfold shr_fexp, shr.
  assert (0 ≤ shr_m (shr_record_of_loc m l))%Z as Hr
    by (destruct l as [|[]]; exact Hm).
  destruct (fexp prec emax (Zdigits2 m + e) - e)%Z; simpl; [done| |done].
  by apply iter_pos_shr_1_nonneg.
Qed.

Lemma round_nearest_even_nonneg m l : (0 ≤ m)%Z → (0 ≤ round_nearest_even m l)%Z.
Proof. intros Hm. destruct l as [|[]]; simpl; [done| |done|lia]. destruct (Z.even m); lia. Qed.

Lemma binary_round_aux_signed s m e l :
  (0 ≤ m)%Z → SF_signed s (binary_round_aux prec emax s m e l).
Proof.
  intros Hm. unfold binary_round_aux.
  pose proof (shr_fexp_nonneg m e l Hm) as H1.
  destruct (shr_fexp prec emax m e l) as [mrs' e'] eqn:E1. simpl in H1.
  pose proof (shr_fexp_nonneg _ e' loc_Exact
                (round_nearest_even_nonneg _ (loc_of_shr_record mrs') H1)) as H2.
  destruct (shr_fexp prec emax _ e' loc_Exact) as [mrs'' e''] eqn:E2. simpl in H2.
  destruct (shr_m mrs'') as [|p|p]; [done| |lia].
  by destruct (e'' <=? emax - prec)%Z.
Qed.

Lemma SF_nonneg_cases x :
  SF_nonneg x ↔
  match x with
  | S754_zero _ => True
  | S754_infinity s | S754_finite s _ _ => s = false
  | S754_nan => False
  end.
Proof. unfold SF_nonneg. destruct x as [[]|[]| |[] m e]; cbn; intuition congruence. Qed.

Lemma SF_signed_nonneg x : SF_signed false x → SF_nonneg x.
Proof. rewrite SF_nonneg_cases. by destruct x. Qed.

(** Products and quotients of non-negative values. *)
Lemma SF64mul_nonneg_finite x y :
  SF_nonneg x → SF_nonneg y → SF_finite x → SF_finite y → SF_nonneg (SF64mul x y).
Proof.
  rewrite !SF_nonneg_cases.
  destruct x as [sx|sx| |sx mx ex], y as [sy|sy| |sy my ey]; try done; intros Hx Hy _ _.
  subst. apply SF_nonneg_cases, SF_signed_nonneg.
  apply (binary_round_aux_signed false); lia.
Qed.

Lemma SF64mul_nonneg_pos x m e :
  SF_nonneg x → SF_nonneg (SF64mul x (S754_finite false m e)).
Proof.
  rewrite !SF_nonneg_cases.
  destruct x as [sx|sx| |sx mx ex]; try done; intros Hx; subst; try done.
  apply SF_nonneg_cases, SF_signed_nonneg.
  apply (binary_round_aux_signed false); lia.
Qed.

Lemma SF64div_nonneg_pos x m e :
  SF_nonneg x → SF_nonneg (SF64div x (S754_finite false m e)).
Proof.
  rewrite !SF_nonneg_cases.
  destruct x as [sx|sx| |sx mx ex]; try done; intros Hx; subst; try done.
  apply SF_nonneg_cases, SF_signed_nonneg.
  unfold SF64div, SFdiv, SFdiv_core_binary.
  set (m' := match _ with Z0 => Z.pos mx | Z.pos _ => _ | Z.neg _ => 0%Z end).
  assert (0 ≤ m')%Z as Hm'.
  { unfold m'. destruct (_ - _ - _)%Z; [lia| |lia]. apply Z.shiftl_nonneg. lia. }
  pose proof (Z.div_pos m' (Z.pos m) Hm' ltac:(lia)) as Hq.
  unfold Z.div in Hq. destruct (Z.div_eucl m' (Z.pos m)) as [q r]. simpl in Hq.
  by apply (binary_round_aux_signed false).
Qed.

(** The comparison on non-negative values. *)
Lemma SFleb_nonneg_total x y :
  SF_nonneg x → SF_nonneg y → SFltb x y = false → SFleb y x = true.
Proof.
  rewrite !SF_nonneg_cases. unfold SFltb, SFleb.
  destruct x as [sx|sx| |sx mx ex], y as [sy|sy| |sy my ey]; try done;
    intros Hx Hy; subst; try done.
  cbn. change (Pos.compare_cont Eq mx my) with (mx ?= my)%positive.
  change (Pos.compare_cont Eq my mx) with (my ?= mx)%positive.
  rewrite (Z.compare_antisym ex ey), (Pos.compare_antisym mx my).
  destruct (ex ?= ey)%Z; cbn; [|done..]. by destruct (mx ?= my)%positive.
Qed.

Lemma SFleb_nonneg_trans x y z :
  SF_nonneg x → SF_nonneg y → SFleb x y = true → SFleb y z = true → SFleb x z = true.
Proof.
  rewrite !SF_nonneg_cases. unfold SFleb.
  destruct x as [sx|sx| |sx mx ex], y as [sy|sy| |sy my ey], z as [sz|sz| |sz mz ez];
    try done; intros Hx Hy; subst; try done; try (by destruct sz).
  destruct sz; [done|]. cbn.
  change (Pos.compare_cont Eq mx my) with (mx ?= my)%positive.
  change (Pos.compare_cont Eq my mz) with (my ?= mz)%positive.
  change (Pos.compare_cont Eq mx mz) with (mx ?= mz)%positive.
  destruct (Z.compare_spec ex ey), (Z.compare_spec ey ez), (Z.compare_spec ex ez);
    try done; try lia;
    destruct (Pos.compare_spec mx my), (Pos.compare_spec my mz), (Pos.compare_spec mx mz);
    try done; lia.
Qed.

(** A count below [2^53] converts to a positive finite float. *)
Lemma binary_round_aux_bounded s m e :
  bounded prec emax m e = true →
  binary_round_aux prec emax s (Z.pos m) e loc_Exact = S754_finite s m e.
Proof.
  unfold bounded, canonical_mantissa. intros [Hc He]%andb_true_iff.
  apply Z.eqb_eq in Hc.
  unfold binary_round_aux, shr_fexp. cbn [Zdigits2 shr_record_of_loc].
  rewrite Hc, Z.sub_diag. cbn [shr shr_m loc_of_shr_record round_nearest_even Zdigits2
    shr_record_of_loc].
  rewrite Hc, Z.sub_diag. cbn [shr shr_m]. by rewrite He.
Qed.

Lemma digits2_pos_iter_xO p k :
  Z.pos (digits2_pos (Pos.iter xO p k)) = (Z.pos (digits2_pos p) + Z.pos k)%Z.
Proof.
  induction k as [|k IH] using Pos.peano_ind.
  - cbn. lia.
  - rewrite Pos.iter_succ. cbn [digits2_pos]. lia.
Qed.

Lemma digits2_pos_bound p k :
  (0 ≤ k)%Z → (Z.pos p < 2 ^ k)%Z → (Z.pos (digits2_pos p) ≤ k)%Z.
Proof.
  revert k. induction p as [p IH|p IH|]; intros k Hk Hp; cbn [digits2_pos].
  - assert (k ≠ 0)%Z by (intros ->; cbn in Hp; lia).
    assert (2 ^ k = 2 * 2 ^ (k - 1))%Z as Hpow
      by (rewrite <-Z.pow_succ_r by lia; f_equal; lia).
    specialize (IH (k - 1)%Z ltac:(lia) ltac:(lia)). lia.
  - assert (k ≠ 0)%Z by (intros ->; cbn in Hp; lia).
    assert (2 ^ k = 2 * 2 ^ (k - 1))%Z as Hpow
      by (rewrite <-Z.pow_succ_r by lia; f_equal; lia).
    specialize (IH (k - 1)%Z ltac:(lia) ltac:(lia)). lia.
  - assert (k ≠ 0)%Z by (intros ->; cbn in Hp; lia). lia.
Qed.

Lemma binary_normalize_small p :
  (Z.pos p < 2 ^ 53)%Z →
  ∃ m e, binary_normalize prec emax (Z.pos p) 0 false = S754_finite false m e.
Proof.
  intros Hp. pose proof (digits2_pos_bound p 53 ltac:(lia) Hp) as Hd.
  unfold binary_normalize, binary_round, shl_align.
  assert (fexp prec emax (Z.pos (digits2_pos p) + 0) = Z.pos (digits2_pos p) - 53)%Z as ->
    by (unfold fexp, emin, prec, emax; lia).
  destruct (Z.pos (digits2_pos p) - 53 - 0)%Z as [|d|d] eqn:Hd'; [|lia|].
  - eexists _, _. apply binary_round_aux_bounded.
    unfold bounded, canonical_mantissa, fexp, emin, prec, emax.
    apply andb_true_iff. split; [apply Z.eqb_eq|apply Z.leb_le]; lia.
  - eexists _, _. apply binary_round_aux_bounded.
    unfold bounded, canonical_mantissa. rewrite digits2_pos_iter_xO.
    unfold fexp, emin, prec, emax.
    apply andb_true_iff. split; [apply Z.eqb_eq|apply Z.leb_le]; lia.
Qed.

Lemma of_nat_finite_pos (k : nat) :
  1 ≤ k → (Z.of_nat k < 2 ^ 53)%Z →
  ∃ m e, Prim2SF (PrimFloat.of_uint63 (Uint63.of_Z (Z.of_nat k))) = S754_finite false m e.
Proof.
  intros Hk Hlt. rewrite of_uint63_spec, Uint63.of_Z_spec.
  rewrite Z.mod_small.
  - destruct (Z.of_nat k) as [|p|p] eqn:E; [lia| |lia]. by apply binary_normalize_small.
  - split; [lia|]. eapply Z.lt_trans; [exact Hlt|]. reflexivity.
Qed.

(** [0.0 + x] is [x], but for [x = -0.0]; and [x / 1.0] is [x]. *)
Lemma SF64add_zero_l x :
  SF64add (S754_zero false) x = match x with S754_zero _ => S754_zero false | _ => x end.
Proof. by destruct x as [[]|[]| |[] m e]. Qed.

Lemma div_eucl_exact a b : (0 < b)%Z → Z.div_eucl (a * b) b = (a, 0%Z).
Proof.
  intros Hb. pose proof (Z.div_mul a b ltac:(lia)) as Hq.
  pose proof (Z.mod_mul a b ltac:(lia)) as Hr.
  unfold Z.div, Z.modulo in Hq, Hr. destruct (Z.div_eucl (a * b) b) as [q r].
  by subst.
Qed.

Lemma SF64div_one x : valid_binary x = true → SF64div x (Prim2SF 1) = x.
Proof.
  intros Hv. change (Prim2SF 1) with (S754_finite false 4503599627370496 (-52)).
  destruct x as [[]|[]| |sx mx ex]; try reflexivity.
  cbn [valid_binary] in Hv. pose proof Hv as Hb.
  unfold bounded, canonical_mantissa in Hv. apply andb_true_iff in Hv as [Hc He].
  apply Z.eqb_eq in Hc. apply Z.leb_le in He.
  unfold fexp, emin, prec, emax in Hc.
  set (d := Z.pos (digits2_pos mx)) in *.
  unfold SF64div, SFdiv, SFdiv_core_binary.
  change (Zdigits2 (Z.pos mx)) with d.
  change (Zdigits2 (Z.pos 4503599627370496)) with 53%Z.
  change (Z.pos 4503599627370496) with (2 ^ 52)%Z.
  replace (xorb sx false) with sx by (by destruct sx).
  change (new_location (2 ^ 52)) with (λ k : Z, new_location (2 ^ 52) k).
  destruct (decide (ex = -1074)%Z) as [Hex|Hex].
  - assert (Z.min (fexp prec emax (d + ex - (53 + -52))) (ex - -52) = ex)%Z as ->
      by (unfold fexp, emin, prec, emax; lia).
    replace (ex - -52 - ex)%Z with 52%Z by lia.
    rewrite (Z.shiftl_mul_pow2 (Z.pos mx) 52) by lia.
    rewrite div_eucl_exact by lia. cbn beta iota.
    change (new_location (2 ^ 52) 0) with loc_Exact.
    by apply binary_round_aux_bounded.
  - assert (Z.min (fexp prec emax (d + ex - (53 + -52))) (ex - -52) = ex - 1)%Z as ->
      by (unfold fexp, emin, prec, emax; lia).
    replace (ex - -52 - (ex - 1))%Z with 53%Z by lia.
    rewrite (Z.shiftl_mul_pow2 (Z.pos mx) 53) by lia.
    replace (Z.pos mx * 2 ^ 53)%Z with (Z.pos mx~0 * 2 ^ 52)%Z
      by (change (2 ^ 53)%Z with (2 * 2 ^ 52)%Z; lia).
    rewrite div_eucl_exact by lia. cbn beta iota.
    change (new_location (2 ^ 52) 0) with loc_Exact.
    unfold binary_round_aux, shr_fexp. cbn [Zdigits2 digits2_pos shr_record_of_loc].
    assert (fexp prec emax (Z.pos (Pos.succ (digits2_pos mx)) + (ex - 1)) - (ex - 1) = 1)%Z
      as -> by (unfold fexp, emin, prec, emax; lia).
    cbn [shr SpecFloat.iter_pos shr_1 orb shr_m loc_of_shr_record round_nearest_even
         Zdigits2 shr_record_of_loc].
    assert (fexp prec emax (Z.pos (digits2_pos mx) + (ex - 1 + 1)) - (ex - 1 + 1) = 0)%Z
      as -> by (unfold fexp, emin, prec, emax; lia).
    cbn [shr shr_m]. replace (ex - 1 + 1)%Z with ex by lia.
    by rewrite (proj2 (Z.leb_le ex (emax - prec)) He).
Qed.

Lemma float_div_one (x : float) : (x / 1)%float = x.
Proof.
  apply Prim2SF_inj. rewrite div_spec. apply SF64div_one, Prim2SF_valid.
Qed.

Lemma float_add_zero (x : float) :
  (0 + x)%float = match classify x with NZero => 0%float | _ => x end.
Proof.
  apply Prim2SF_inj. rewrite add_spec. change (Prim2SF 0) with (S754_zero false).
  rewrite SF64add_zero_l, classify_spec. unfold SF64classify, SFclassify.
  destruct (Prim2SF x) as [[]|[]| |[] m e] eqn:E; rewrite ?E; try reflexivity.
  - by destruct (Z.pos (digits2_pos m) =? prec)%Z.
  - by destruct (Z.pos (digits2_pos m) =? prec)%Z.
Qed.

(** ** Outcomes and item access *)

Lemma getitem_Returns {A} (l : list A) i x : l !! i = Some x → getitem l i = Returns x.
Proof. unfold getitem. by intros ->. Qed.

Lemma setitem_Returns {A} (l : list A) i x :
  i < length l → setitem l i x = Returns (<[i:=x]> l).
Proof. unfold setitem. intros. by rewrite decide_True. Qed.

Lemma bind_Returns {A B} (a : A) (k : A → outcome B) : (Returns a ≫= k) = k a.
Proof. reflexivity. Qed.

Lemma bind_Raises {A B} (e : exn) (k : A → outcome B) : (Raises e ≫= k) = Raises e.
Proof. reflexivity. Qed.

(** ** [get_qvalues]: the walk and its trace *)

Section QValues.
Context {num : Type} `{!Float64Ops num}.

Lemma assign_all_length tr (qvals : list num) :
  length (foldl assign qvals tr) = length qvals.
Proof.
  revert qvals. induction tr as [|t tr IH]; intros qvals; simpl; [done|].
  rewrite IH. unfold assign. by rewrite length_insert.
Qed.

Lemma qvalues_loop_trace pvals pi_zero n a s q qvals :
  Forall (λ i, i < length pvals) a →
  length qvals = length pvals →
  qvalues_loop pvals pi_zero n a s q qvals
  = Returns (foldl assign qvals (qvalues_trace pvals pi_zero n a s q)).
Proof.
  revert s q qvals. induction a as [|i a IH]; intros s q qvals Ha Hlen; simpl; [done|].
  apply Forall_cons in Ha as [Hi Ha].
  destruct (lookup_lt_is_Some_2 pvals i Hi) as [p Hp].
  rewrite (getitem_Returns _ _ _ Hp). cbn.
  rewrite setitem_Returns by lia. cbn.
  rewrite IH; [|done|by rewrite length_insert].
  by rewrite Hp.
Qed.

Lemma qvalues_trace_indices pvals pi_zero n a s q :
  (λ t : nat * nat * num, t.1.1) <$> qvalues_trace pvals pi_zero n a s q = a.
Proof.
  revert s q. induction a as [|i a IH]; intros s q; simpl; [done|]. by rewrite IH.
Qed.

(** The counter of the step at position [k] of the walk is [s + k]. *)
Lemma qvalues_trace_counter pvals pi_zero n a s q k t :
  qvalues_trace pvals pi_zero n a s q !! k = Some t → t.1.2 = s + k ∧ a !! k = Some t.1.1.
Proof.
  revert s q k. induction a as [|i a IH]; intros s q k; simpl; [done|].
  destruct k as [|k]; simpl.
  - intros [= <-]. simpl. split; [lia|done].
  - intros Ht. apply IH in Ht as [-> ?]. split; [lia|done].
Qed.

Lemma qvalues_trace_lookup pvals pi_zero n a s q k i :
  a !! k = Some i →
  ∃ q', qvalues_trace pvals pi_zero n a s q !! k = Some (i, s + k, q').
Proof.
  revert s q k. induction a as [|j a IH]; intros s q k; simpl; [done|].
  destruct k as [|k]; simpl.
  - intros [= <-]. eexists. by rewrite Nat.add_0_r.
  - intros Hk. destruct (IH (S s) (py_min (candidate pi_zero n (default f_zero (pvals !! j)) s) q) k Hk) as [q' Hq'].
    exists q'. rewrite Hq'. do 3 f_equal. lia.
Qed.

(** An index assigned once keeps its value to the end. *)
Lemma assign_all_notin tr (qvals : list num) i :
  i ∉ (λ t : nat * nat * num, t.1.1) <$> tr →
  foldl assign qvals tr !! i = qvals !! i.
Proof.
  revert qvals. induction tr as [|t tr IH]; intros qvals Hi; simpl; [done|].
  rewrite fmap_cons, not_elem_of_cons in Hi. destruct Hi as [Hne Hi].
  rewrite IH by done. unfold assign. by rewrite list_lookup_insert_ne.
Qed.

Lemma assign_all_lookup tr (qvals : list num) t :
  NoDup ((λ t : nat * nat * num, t.1.1) <$> tr) →
  t ∈ tr → t.1.1 < length qvals →
  foldl assign qvals tr !! t.1.1 = Some t.2.
Proof.
  revert qvals. induction tr as [|t' tr IH]; intros qvals Hnd Hin Hlt; [by apply elem_of_nil in Hin|].
  rewrite fmap_cons in Hnd. apply NoDup_cons in Hnd as [Hnotin Hnd].
  apply elem_of_cons in Hin as [->|Hin]; simpl.
  - rewrite assign_all_notin by done. unfold assign. by rewrite list_lookup_insert_eq.
  - apply IH; [done..|]. unfold assign. by rewrite length_insert.
Qed.
End QValues.

Section QValuesOrder.
Context {num : Type} `{!Float64Ops num} `{!OrderLaws num}.

Lemma f_ltb_irrefl (x : num) : f_ltb x x = false.
Proof.
  destruct (f_ltb x x) eqn:E; [|done]. by rewrite (f_ltb_asym _ _ E) in E.
Qed.

Lemma f_le_refl (x : num) : f_le x x.
Proof. apply f_ltb_irrefl. Qed.

Lemma f_lt_le (x y : num) : f_lt x y → f_le x y.
Proof. apply f_ltb_asym. Qed.

Lemma f_lt_le_trans (x y z : num) : f_lt x y → f_le y z → f_lt x z.
Proof.
  unfold f_lt. intros Hxy Hyz. destruct (f_ltb x z) eqn:E; [done|].
  assert (f_le y x) as Hyx by (by apply f_le_trans with z).
  unfold f_le in Hyx. congruence.
Qed.

Lemma py_min_le_r (x y : num) : f_le (py_min x y) y.
Proof.
  unfold py_min. destruct (f_ltb y x) eqn:E; [apply f_le_refl|done].
Qed.

Lemma py_min_le_l (x y : num) : f_le (py_min x y) x.
Proof.
  unfold py_min. destruct (f_ltb y x) eqn:E; [by apply f_lt_le|apply f_le_refl].
Qed.

(** The running minimum never increases along the walk. *)
Lemma qvalues_trace_bound pvals pi_zero n a s q :
  Forall (λ t, f_le t.2 q) (qvalues_trace pvals pi_zero n a s q).
Proof.
  revert s q. induction a as [|i a IH]; intros s q; simpl; [done|].
  constructor; [apply py_min_le_r|].
  eapply Forall_impl; [apply IH|]. intros t Ht. simpl in Ht.
  eapply f_le_trans; [apply Ht|apply py_min_le_r].
Qed.

Lemma qvalues_trace_descending pvals pi_zero n a s q k l t u :
  qvalues_trace pvals pi_zero n a s q !! k = Some t →
  qvalues_trace pvals pi_zero n a s q !! l = Some u →
  k ≤ l → f_le u.2 t.2.
Proof.
  revert s q k l. induction a as [|i a IH]; intros s q k l; simpl; [done|].
  destruct k as [|k], l as [|l]; simpl; intros Ht Hu Hkl; try lia.
  - injection Ht as <-. injection Hu as <-. apply f_le_refl.
  - injection Ht as <-. simpl.
    pose proof (qvalues_trace_bound pvals pi_zero n a (S s)
      (py_min (candidate pi_zero n (default f_zero (pvals !! i)) s) q)) as Hb.
    rewrite Forall_lookup in Hb. by apply (Hb l u).
  - eapply IH; [done..|lia].
Qed.

(** *** The stable ascending sort *)

Lemma insert_stable_perm (x : nat * num) l : insert_stable x l ≡ₚ x :: l.
Proof.
  induction l as [|y l IH]; simpl; [done|].
  destruct (f_ltb y.2 x.2); [|done].
  rewrite IH. apply Permutation_swap.
Qed.

Lemma insert_stable_sorted (x : nat * num) l :
  Forall (λ y, x.1 < y.1) l →
  StronglySorted stable_le l → StronglySorted stable_le (insert_stable x l).
Proof.
  induction l as [|y l IH]; intros Hidx Hs; simpl.
  - repeat constructor.
  - apply Forall_cons in Hidx as [Hxy Hidx].
    apply StronglySorted_inv in Hs as [Hs Hy].
    destruct (f_ltb y.2 x.2) eqn:E.
    + constructor; [by apply IH|].
      rewrite insert_stable_perm. constructor; [|done].
      split; [by apply f_ltb_asym|]. unfold f_le. congruence.
    + constructor; [by constructor|].
      constructor; [by split|].
      rewrite Forall_forall in Hy, Hidx |- *. intros z Hz. split.
      * eapply f_le_trans; [exact E|]. by apply Hy.
      * intros _. by apply Hidx.
Qed.

Lemma foldr_insert_stable_perm (l : list (nat * num)) :
  foldr insert_stable [] l ≡ₚ l.
Proof.
  induction l as [|x l IH]; simpl; [done|]. by rewrite insert_stable_perm, IH.
Qed.

Lemma sorted_pairs_perm pvals : sorted_pairs pvals ≡ₚ zip (seq 0 (length pvals)) pvals.
Proof. apply foldr_insert_stable_perm. Qed.

Lemma zip_seq_sorted (pvals : list num) start :
  StronglySorted stable_le
    (foldr insert_stable [] (zip (seq start (length pvals)) pvals))
  ∧ Forall (λ y, start ≤ y.1) (zip (seq start (length pvals)) pvals).
Proof.
  revert start. induction pvals as [|p pvals IH]; intros start; simpl.
  - split; constructor.
  - destruct (IH (S start)) as [Hs Hge]. split.
    + apply insert_stable_sorted; [|done].
      rewrite foldr_insert_stable_perm. simpl.
      eapply Forall_impl; [exact Hge|]. simpl. lia.
    + constructor; [simpl; lia|].
      eapply Forall_impl; [exact Hge|]. simpl. lia.
Qed.

Lemma sorted_pairs_sorted pvals : StronglySorted stable_le (sorted_pairs pvals).
Proof. apply (zip_seq_sorted pvals 0). Qed.

Lemma elem_of_zip_seq (pvals : list num) i p :
  (i, p) ∈ zip (seq 0 (length pvals)) pvals ↔ pvals !! i = Some p.
Proof.
  rewrite list_elem_of_lookup. split.
  - intros [k Hk]. apply lookup_zip_with_Some in Hk as (i' & p' & [= <- <-] & Hi & Hp).
    apply lookup_seq in Hi as [-> _]. done.
  - intros Hp. exists i. apply lookup_zip_with_Some. exists i, p. split; [done|].
    split; [|done]. apply lookup_seq. split; [done|]. by apply lookup_lt_Some in Hp.
Qed.

Lemma sorted_pairs_elem pvals i p :
  (i, p) ∈ sorted_pairs pvals ↔ pvals !! i = Some p.
Proof. by rewrite sorted_pairs_perm, elem_of_zip_seq. Qed.

Lemma argsort_perm (pvals : list num) : argsort pvals ≡ₚ seq 0 (length pvals).
Proof.
  unfold argsort. fold (sorted_pairs pvals). rewrite sorted_pairs_perm.
  rewrite fst_zip; [done|]. by rewrite length_seq.
Qed.

Lemma argsort_NoDup (pvals : list num) : NoDup (argsort pvals).
Proof. rewrite argsort_perm. apply NoDup_seq. Qed.

Lemma argsort_length (pvals : list num) : length (argsort pvals) = length pvals.
Proof. by rewrite argsort_perm, length_seq. Qed.

Lemma argsort_lt (pvals : list num) : Forall (λ i, i < length pvals) (argsort pvals).
Proof.
  rewrite argsort_perm. apply Forall_forall. intros i Hi.
  apply elem_of_seq in Hi. lia.
Qed.

Lemma argsort_lookup pvals k i :
  argsort pvals !! k = Some i →
  ∃ p, sorted_pairs pvals !! k = Some (i, p) ∧ pvals !! i = Some p.
Proof.
  unfold argsort. fold (sorted_pairs pvals). rewrite list_lookup_fmap.
  destruct (sorted_pairs pvals !! k) as [[i' p]|] eqn:E; simpl; [|done].
  intros [= ->]. exists p. split; [done|].
  apply sorted_pairs_elem. by eapply list_elem_of_lookup_2.
Qed.

Lemma StronglySorted_lookup {A} (R : A → A → Prop) (l : list A) k k' x y :
  StronglySorted R l → l !! k = Some x → l !! k' = Some y → k < k' → R x y.
Proof.
  intros Hs. revert k k'. induction Hs as [|z l Hs IH Hz]; intros k k'; [done|].
  destruct k as [|k], k' as [|k']; simpl; intros Hx Hy Hlt; try lia.
  - injection Hx as <-. rewrite Forall_forall in Hz. apply Hz.
    by eapply list_elem_of_lookup_2.
  - eapply IH; [done..|lia].
Qed.

(** In the ascending arrangement, values do not decrease, and equal values
    keep the order of their indices. *)
Lemma argsort_ascending pvals k l i j p_i p_j :
  argsort pvals !! k = Some i → argsort pvals !! l = Some j →
  pvals !! i = Some p_i → pvals !! j = Some p_j →
  k < l → stable_le (i, p_i) (j, p_j).
Proof.
  intros Hk Hl Hi Hj Hkl.
  apply argsort_lookup in Hk as (p & Hk & Hp), Hl as (p' & Hl & Hp').
  simplify_eq. by eapply (StronglySorted_lookup _ _ _ _ _ _ (sorted_pairs_sorted pvals)).
Qed.

Lemma argsort_position pvals i :
  i < length pvals → ∃ k, argsort pvals !! k = Some i.
Proof.
  intros Hi. apply list_elem_of_lookup. rewrite argsort_perm. apply elem_of_seq. lia.
Qed.
End QValuesOrder.

Section QValuesMonotone.
Context {num : Type} `{!Float64Ops num} `{!OrderLaws num}.

Lemma get_qvalues_Returns pvals pi_zero :
  get_qvalues pvals pi_zero = Returns (qvalues_of pvals pi_zero).
Proof.
  unfold get_qvalues, qvalues_of, visit_steps. apply qvalues_loop_trace.
  - apply Forall_reverse, argsort_lt.
  - by rewrite length_replicate.
Qed.

Lemma qvalues_of_length pvals pi_zero :
  length (qvalues_of pvals pi_zero) = length pvals.
Proof. unfold qvalues_of, visit_steps. by rewrite assign_all_length, length_replicate. Qed.

(** The entry at position [k] of the ascending arrangement is visited at
    step [length pvals - k] of the walk, and keeps the value of that step. *)
Lemma qvalues_of_entry pvals pi_zero k i :
  argsort pvals !! k = Some i →
  ∃ q, qvalues_trace pvals pi_zero (length pvals) (reverse (argsort pvals)) 1 f_one
         !! (length pvals - S k) = Some (i, 1 + (length pvals - S k), q)
       ∧ qvalues_of pvals pi_zero !! i = Some q.
Proof.
  intros Hk.
  assert (k < length pvals) as Hlt
    by (rewrite <-argsort_length; by eapply lookup_lt_Some).
  assert (reverse (argsort pvals) !! (length pvals - S k) = Some i) as Hw.
  { rewrite reverse_lookup by (rewrite argsort_length; lia).
    rewrite argsort_length. replace (length pvals - S (length pvals - S k)) with k by lia.
    done. }
  destruct (qvalues_trace_lookup pvals pi_zero (length pvals) _ 1 f_one _ _ Hw) as [q Hq].
  exists q. split; [done|].
  unfold qvalues_of, visit_steps.
  apply (assign_all_lookup _ _ (i, 1 + (length pvals - S k), q)).
  - rewrite qvalues_trace_indices, reverse_Permutation. apply argsort_NoDup.
  - by eapply list_elem_of_lookup_2.
  - simpl. rewrite length_replicate.
    pose proof (argsort_lt pvals) as Ha. rewrite Forall_lookup in Ha. by eapply Ha.
Qed.


End QValuesMonotone.


(** On binary64: the example of the documentation, and a tie. *)
Example get_qvalues_float_example :
  get_qvalues [0.125; 0.25; 0.5]%float 1%float = Returns [0.125; 0.375; 1]%float.
Proof. vm_compute. reflexivity. Qed.

Example get_qvalues_float_tie :
  argsort [0.5; 0.5]%float = [0; 1]
  ∧ get_qvalues [0.5; 0.5]%float 1%float = Returns [0.5; 1]%float.
Proof. split; vm_compute; reflexivity. Qed.


(** ** The range of the q-values on binary64 *)

Lemma float_leb_zero (x : float) : (0 <=? x)%float = true ↔ SF_nonneg (Prim2SF x).
Proof. rewrite leb_spec. reflexivity. Qed.

Lemma in_unit_finite (x : float) : in_unit x → SF_finite (Prim2SF x).
Proof.
  intros [H0 H1]. rewrite leb_spec in H0, H1.
  destruct (Prim2SF x) as [s|[]| |s m e]; [exact I| | | |exact I].
  - vm_compute in H0. discriminate H0.
  - vm_compute in H1. discriminate H1.
  - vm_compute in H1. discriminate H1.
Qed.

Lemma float_ltb_infinity_finite (x : float) :
  (0 <=? x)%float = true → (x <? infinity)%float = true → SF_finite (Prim2SF x).
Proof.
  rewrite leb_spec, ltb_spec. intros H0 H1.
  destruct (Prim2SF x) as [s|[]| |s m e]; [exact I| | | |exact I].
  - vm_compute in H0. discriminate H0.
  - vm_compute in H1. discriminate H1.
  - vm_compute in H1. discriminate H1.
Qed.

Lemma candidate_float_nonneg (pi_zero p : float) (n s : nat) :
  (0 <=? pi_zero)%float = true → (pi_zero <? infinity)%float = true →
  in_unit p →
  1 ≤ n → (Z.of_nat n < 2 ^ 53)%Z → 1 ≤ s → (Z.of_nat s < 2 ^ 53)%Z →
  (0 <=? candidate pi_zero n p s)%float = true.
Proof.
  intros Hpi Hfin Hp Hn Hn' Hs Hs'. unfold candidate. cbn [f_div f_mul f_of_nat float64].
  apply float_leb_zero. rewrite div_spec, !mul_spec.
  destruct (of_nat_finite_pos n Hn Hn') as (mn & en & ->).
  destruct (of_nat_finite_pos s Hs Hs') as (ms & es & ->).
  apply SF64div_nonneg_pos, SF64mul_nonneg_pos, SF64mul_nonneg_finite.
  - by apply float_leb_zero.
  - apply float_leb_zero. by destruct Hp.
  - by apply float_ltb_infinity_finite.
  - by apply in_unit_finite.
Qed.

Lemma py_min_in_unit (c q : float) :
  (0 <=? c)%float = true → in_unit q → in_unit (py_min c q).
Proof.
  intros Hc Hq. unfold py_min. cbn [f_ltb float64].
  destruct (q <? c)%float eqn:Hlt; [exact Hq|].
  split; [exact Hc|]. destruct Hq as [Hq0 Hq1].
  rewrite ltb_spec in Hlt. rewrite leb_spec in Hq1. rewrite leb_spec.
  apply float_leb_zero in Hc, Hq0.
  apply (SFleb_nonneg_trans _ (Prim2SF q)); [done|done| |done].
  by apply SFleb_nonneg_total.
Qed.

Lemma qvalues_trace_in_unit (pvals : list float) (pi_zero : float) a s q :
  Forall in_unit pvals →
  (0 <=? pi_zero)%float = true → (pi_zero <? infinity)%float = true →
  (Z.of_nat (length pvals) < 2 ^ 53)%Z →
  Forall (λ i, i < length pvals) a →
  1 ≤ s → (Z.of_nat (s + length a) ≤ 2 ^ 53)%Z →
  in_unit q →
  Forall (λ t, in_unit t.2) (qvalues_trace pvals pi_zero (length pvals) a s q).
Proof.
  intros Hp Hpi Hfin Hn. revert s q.
  induction a as [|i a IH]; intros s q Ha Hs Hs' Hq; cbn [qvalues_trace]; [constructor|].
  apply Forall_cons in Ha as [Hi Ha]. cbn [length] in Hs'.
  destruct (lookup_lt_is_Some_2 pvals i Hi) as [p Hpi'].
  rewrite Hpi'. cbn [default from_option].
  assert (in_unit (py_min (candidate pi_zero (length pvals) p s) q)) as Hq'.
  { apply py_min_in_unit; [|exact Hq].
    apply candidate_float_nonneg; [done|done| |lia|done|done|lia].
    rewrite Forall_lookup in Hp. exact (Hp _ _ Hpi'). }
  constructor; [exact Hq'|]. apply IH; [done|lia|lia|exact Hq'].
Qed.

Lemma qvalues_of_Forall {num : Type} `{!Float64Ops num} (P : num → Prop)
    (pvals : list num) pi_zero :
  Forall (λ t, P t.2)
    (qvalues_trace pvals pi_zero (length pvals) (reverse (argsort pvals)) 1 f_one) →
  Forall P (qvalues_of pvals pi_zero).
Proof.
  intros Htr. apply Forall_lookup. intros i q Hq.
  destruct (argsort_position pvals i) as [k Hk].
  { rewrite <-(qvalues_of_length pvals pi_zero). by eapply lookup_lt_Some. }
  destruct (qvalues_of_entry pvals pi_zero k i Hk) as (q' & Ht & Hq').
  rewrite Hq in Hq'. injection Hq' as <-.
  rewrite Forall_lookup in Htr. apply (Htr _ _ Ht).
Qed.

(** C2, as the code has it on binary64.  For every p-value vector with
    entries in [[0, 1]] and every finite prior [pi_zero >= 0],
    [get_qvalues] returns q-values in [[0, 1]] (1.0 is the initial running
    minimum), none of them NaN; they are at most the prior when the prior
    is at least 1 (as the default 1.0 is).  The vector has fewer than
    [2^53] entries, so that the counts [n] and [s] are floats. *)
Theorem get_qvalues_range (pvals : list float) (pi_zero : float) :
  (Z.of_nat (length pvals) < 2 ^ 53)%Z →
  Forall in_unit pvals →
  (0 <=? pi_zero)%float = true → (pi_zero <? infinity)%float = true →
  ∃ qvals,
    get_qvalues pvals pi_zero = Returns qvals
    ∧ length qvals = length pvals
    ∧ Forall in_unit qvals
    ∧ ((1 <=? pi_zero)%float = true → Forall (λ q, (q <=? pi_zero)%float = true) qvals).
Proof.
  intros Hn Hp Hpi Hfin. exists (qvalues_of pvals pi_zero).
  split; [apply get_qvalues_Returns|]. split; [apply qvalues_of_length|].
  assert (Forall in_unit (qvalues_of pvals pi_zero)) as Hunit.
  { apply qvalues_of_Forall, qvalues_trace_in_unit; [done..| |lia| |].
    - apply Forall_reverse, argsort_lt.
    - rewrite length_reverse, argsort_length. lia.
    - split; vm_compute; reflexivity. }
  split; [exact Hunit|]. intros Hge.
  eapply Forall_impl; [exact Hunit|]. intros q [Hq0 Hq1]. cbn beta.
  rewrite leb_spec in Hq1, Hge. rewrite leb_spec.
  apply float_leb_zero in Hq0.
  apply (SFleb_nonneg_trans _ (Prim2SF 1)); [exact Hq0| |exact Hq1|exact Hge].
  vm_compute. reflexivity.
Qed.

Lemma get_qvalues_range_witness :
  ∃ qvals : list float,
    get_qvalues [0.5; 0.25; 0]%float 2%float = Returns qvals
    ∧ Forall in_unit qvals
    ∧ Forall (λ q, (q <=? 2)%float = true) qvals.
Proof.
  destruct (get_qvalues_range [0.5; 0.25; 0]%float 2%float) as (qvals & Hq & _ & Hr & Hpi).
  - vm_compute. reflexivity.
  - repeat constructor.
  - vm_compute. reflexivity.
  - vm_compute. reflexivity.
  - exists qvals. split_and!; [exact Hq|exact Hr|]. apply Hpi. vm_compute. reflexivity.
Defined.

(** The claim C2 as stated fails on binary64: a p-value 0 gets the q-value
    0, and so does, by underflow, the smallest positive p-value under the
    prior 0.5: neither is strictly positive. *)
Lemma get_qvalues_range_counterexample :
  (Forall in_unit [0%float]
   ∧ get_qvalues [0%float] 1%float = Returns [0%float]
   ∧ (0 <? 0)%float = false)
  ∧ (Forall in_unit [0x1p-1074%float]
     ∧ (0 <? 0x1p-1074)%float = true ∧ (0 <? 0.5)%float = true
     ∧ get_qvalues [0x1p-1074%float] 0.5%float = Returns [0%float]).
Proof.
  split; split_and!; try (repeat constructor); vm_compute; reflexivity.
Qed.

(** C3, as the code has it.  [get_qvalues] validates nothing: for every
    input vector, the empty one and those with values outside [[0, 1]]
    included, it raises no error and returns a vector of the same length
    (the empty vector for the empty input). *)
Theorem get_qvalues_total {num : Type} `{!Float64Ops num} (pvals : list num) (pi_zero : num) :
  ∃ qvals, get_qvalues pvals pi_zero = Returns qvals ∧ length qvals = length pvals.
Proof.
  exists (qvalues_of pvals pi_zero).
  split; [apply get_qvalues_Returns|apply qvalues_of_length].
Qed.

(** The claim C3 as stated fails: on the empty vector and on a vector with
    the entries 2 and -1, [get_qvalues] returns. *)
Lemma get_qvalues_invalid_counterexample :
  get_qvalues ([] : list float) 1%float = Returns []
  ∧ (¬ f_le 2%float 1%float ∧ ¬ f_le 0%float (-1)%float
     ∧ get_qvalues [2%float; (-1)%float] 1%float = Returns [1%float; (-1)%float]).
Proof.
  split_and!; vm_compute; (reflexivity || discriminate).
Qed.

Section QValuesTies.
Context {num : Type} `{!Float64Ops num} `{!OrderLaws num}.

Lemma visit_steps_position pvals pi_zero i s q :
  (i, s, q) ∈ visit_steps pvals pi_zero →
  1 ≤ s ≤ length pvals ∧ argsort pvals !! (length pvals - s) = Some i.
Proof.
  intros Hin. apply list_elem_of_lookup in Hin as [k Hk].
  apply qvalues_trace_counter in Hk as [Hs Hw]. simpl in Hs, Hw. subst s.
  apply reverse_lookup_Some in Hw as [Hw Hlt].
  rewrite argsort_length in Hw, Hlt.
  split; [lia|]. by replace (length pvals - (1 + k)) with (length pvals - S k) by lia.
Qed.

Lemma visit_steps_visited pvals pi_zero i :
  i < length pvals →
  ∃ s q, (i, s, q) ∈ visit_steps pvals pi_zero
         ∧ qvalues_of pvals pi_zero !! i = Some q.
Proof.
  intros Hi. destruct (argsort_position pvals i Hi) as [k Hk].
  destruct (qvalues_of_entry pvals pi_zero k i Hk) as (q & Ht & Hq).
  exists (1 + (length pvals - S k)), q. split; [|done].
  by eapply list_elem_of_lookup_2.
Qed.

(** C4, as the code has it.  The ascending sort is stable and the walk
    runs through it backwards: of two entries with equal p-values, the
    one with the larger input index is visited earlier (it receives the
    smaller counter [s]), and the one with the smaller index is visited
    later and receives a q-value that is not larger. *)
Theorem get_qvalues_ties (pvals : list num) (pi_zero : num) i j p_i p_j :
  pvals !! i = Some p_i → pvals !! j = Some p_j →
  f_le p_i p_j → f_le p_j p_i →
  i < j →
  (∃ s_i s_j q_i q_j,
     (i, s_i, q_i) ∈ visit_steps pvals pi_zero
     ∧ (j, s_j, q_j) ∈ visit_steps pvals pi_zero)
  ∧ (∀ s_i s_j q_i q_j,
       (i, s_i, q_i) ∈ visit_steps pvals pi_zero →
       (j, s_j, q_j) ∈ visit_steps pvals pi_zero →
       s_j < s_i ∧ f_le q_i q_j).
Proof.
  intros Hi Hj Hij Hji Hlt. split.
  - destruct (visit_steps_visited pvals pi_zero i) as (s_i & q_i & Hsi & _);
      [by eapply lookup_lt_Some|].
    destruct (visit_steps_visited pvals pi_zero j) as (s_j & q_j & Hsj & _);
      [by eapply lookup_lt_Some|].
    by exists s_i, s_j, q_i, q_j.
  - intros s_i s_j q_i q_j Hsi Hsj.
    pose proof (visit_steps_position _ _ _ _ _ Hsi) as [Hri Hai].
    pose proof (visit_steps_position _ _ _ _ _ Hsj) as [Hrj Haj].
    assert (s_j < s_i) as Hs.
    { destruct (decide (s_j < s_i)) as [|Hge]; [done|]. exfalso.
      destruct (decide (s_i = s_j)) as [->|Hne].
      - rewrite Hai in Haj. injection Haj as ->. lia.
      - assert (length pvals - s_j < length pvals - s_i) as Hpos by lia.
        destruct (argsort_ascending pvals _ _ j i p_j p_i Haj Hai Hj Hi Hpos) as [_ Hidx].
        simpl in Hidx. specialize (Hidx Hij). lia. }
    split; [done|].
    apply list_elem_of_lookup in Hsi as [k Hk], Hsj as [l Hl].
    pose proof (qvalues_trace_counter _ _ _ _ _ _ _ _ Hk) as [Hck _].
    pose proof (qvalues_trace_counter _ _ _ _ _ _ _ _ Hl) as [Hcl _].
    simpl in Hck, Hcl.
    apply (qvalues_trace_descending _ _ _ _ _ _ _ _ _ _ Hl Hk). lia.
Qed.
End QValuesTies.

Lemma get_qvalues_ties_witness :
  ∃ s_i s_j q_i q_j,
    (0, s_i, q_i) ∈ visit_steps [(1/2)%R; (1/2)%R] 1%R
    ∧ (1, s_j, q_j) ∈ visit_steps [(1/2)%R; (1/2)%R] 1%R.
Proof.
  refine (proj1 (get_qvalues_ties (num:=R) [(1/2)%R; (1/2)%R] 1%R 0 1
                   (1/2)%R (1/2)%R eq_refl eq_refl _ _ _)).
  - apply real_ltb_false. lra.
  - apply real_ltb_false. lra.
  - lia.
Defined.

(** The claim C4 as stated fails on binary64: of the two equal p-values of
    [[0.5; 0.5]] the walk visits index 1 first (counter 1) and index 0
    second (counter 2). *)
Lemma get_qvalues_ties_counterexample :
  visit_steps [0.5%float; 0.5%float] 1%float
  = [(1, 1, 1%float); (0, 2, 0.5%float)].
Proof. vm_compute. reflexivity. Qed.

(** ** [GOPCAConfig.__init__] *)

#[export] Instance str_le_total : Total str_le.
Proof. intros a b. apply String.leb_total. Qed.

Lemma sorted_Permutation (l : list string) : sorted l ≡ₚ l.
Proof. apply merge_sort_Permutation. Qed.

Lemma sorted_Sorted (l : list string) : Sorted str_le (sorted l).
Proof. apply Sorted_merge_sort. apply _. Qed.

Lemma assert_supplied_missing (supplied_attrs : gset string) ks k :
  k ∈ ks → k ∉ supplied_attrs →
  assert_supplied supplied_attrs ks = Raises AssertionError.
Proof.
  induction ks as [|k' ks IH]; intros Hin Hk; [by apply elem_of_nil in Hin|].
  simpl. destruct (decide (k' ∈ supplied_attrs)) as [Hk'|Hk'].
  - rewrite bool_decide_eq_true_2 by done. cbn.
    apply elem_of_cons in Hin as [->|Hin]; [done|]. by apply IH.
  - by rewrite bool_decide_eq_false_2.
Qed.

Lemma assert_supplied_all (supplied_attrs : gset string) ks :
  Forall (λ k, k ∈ supplied_attrs) ks →
  assert_supplied supplied_attrs ks = Returns ().
Proof.
  induction 1 as [|k ks Hk _ IH]; simpl; [done|].
  rewrite bool_decide_eq_true_2 by done. cbn. exact IH.
Qed.

Lemma dict_of_keys_Returns {V : Type} (kwargs : gmap string V) ks :
  Forall (λ k, is_Some (kwargs !! k)) ks →
  ∃ d, dict_of_keys kwargs ks = Returns d
       ∧ ∀ k, d !! k = if decide (k ∈ ks) then kwargs !! k else None.
Proof.
  induction 1 as [|k ks [v Hv] _ (d & Hd & Hlook)].
  - exists ∅. split; [done|]. intros k. rewrite lookup_empty.
    case_decide as Hk; [by apply elem_of_nil in Hk|done].
  - exists (<[k:=v]> d). cbn [dict_of_keys]. unfold dict_get. rewrite Hv. cbn. rewrite Hd. cbn.
    split; [done|]. intros k'. rewrite lookup_insert, Hlook.
    destruct (decide (k = k')) as [->|Hne].
    + rewrite decide_True by (apply elem_of_cons; by left). done.
    + destruct (decide (k' ∈ ks)) as [Hin|Hin].
      * rewrite decide_True by (apply elem_of_cons; by right). done.
      * rewrite decide_False; [done|]. intros Hc.
        apply elem_of_cons in Hc as [->|Hc]; [by apply Hne|by apply Hin].
Qed.

(** C5. Constructing a [GOPCAConfig] fails (the assertion raises, and no
    object is built) whenever a recognized attribute is missing from the
    keyword arguments.  Every unrecognized attribute supplied produces a
    warning line (the lines printed are exactly those of the unknown
    attributes, in sorted order); when all recognized attributes are there,
    construction proceeds and the configuration holds exactly the
    recognized attributes, with the values supplied. *)
Theorem GOPCAConfig_init_spec {V : Type} (kwargs : gmap string V) :
  (∃ ks, (GOPCAConfig_init kwargs).1 = unknown_warning <$> ks
         ∧ Sorted str_le ks
         ∧ ∀ k, k ∈ ks ↔ is_Some (kwargs !! k) ∧ k ∉ valid_attrs)
  ∧ (∀ k, k ∈ valid_attrs → kwargs !! k = None →
       (GOPCAConfig_init kwargs).2 = Raises AssertionError)
  ∧ ((∀ k, k ∈ valid_attrs → is_Some (kwargs !! k)) →
     ∃ c, (GOPCAConfig_init kwargs).2 = Returns c
          ∧ dom (config_dict c) = valid_attrs
          ∧ (∀ k, k ∈ valid_attrs → config_dict c !! k = kwargs !! k)
          ∧ (∀ k, k ∉ valid_attrs → config_dict c !! k = None)).
Proof.
  split_and!.
  - exists (sorted (elements (dom kwargs ∖ valid_attrs))).
    split; [done|]. split; [apply sorted_Sorted|].
    intros k. rewrite sorted_Permutation, elem_of_elements, elem_of_difference.
    by rewrite elem_of_dom.
  - intros k Hk Hnone. unfold GOPCAConfig_init. cbn [snd].
    rewrite (assert_supplied_missing _ _ k); [done| |].
    + by apply elem_of_elements.
    + by apply not_elem_of_dom.
  - intros Hall. unfold GOPCAConfig_init. cbn [snd].
    rewrite assert_supplied_all; last first.
    { apply Forall_forall. intros k Hk. apply elem_of_dom, Hall.
      by apply elem_of_elements. }
    destruct (dict_of_keys_Returns kwargs (elements valid_attrs)) as (d & Hd & Hlook).
    { apply Forall_forall. intros k Hk. apply Hall. by apply elem_of_elements. }
    rewrite bind_Returns, Hd, bind_Returns. exists (Config (d ∪ ∅)). split; [done|].
    rewrite (right_id_L ∅ (∪)). simpl.
    assert (∀ k, k ∈ valid_attrs → d !! k = kwargs !! k) as Hin.
    { intros k Hk. rewrite Hlook. rewrite decide_True; [done|]. by apply elem_of_elements. }
    assert (∀ k, k ∉ valid_attrs → d !! k = None) as Hout.
    { intros k Hk. rewrite Hlook. rewrite decide_False; [done|]. by rewrite elem_of_elements. }
    split_and!; [|done|done].
    apply set_eq. intros k. rewrite elem_of_dom.
    destruct (decide (k ∈ valid_attrs)) as [Hk|Hk].
    + rewrite (Hin k Hk). split; [done|]. intros _. by apply Hall.
    + rewrite (Hout k Hk). split; [by intros [? ?]|]. intros Hk'. by destruct Hk.
Qed.

(** ** [GOPCASignature.__eq__] *)

Section SignatureEq.
Context {V enrichment : Type} (enrichment_repr : enrichment → string).

Lemma GOPCASignature_eq_other (self : GOPCASignature enrichment) (o : pyobj V enrichment) :
  is_signature o = false → GOPCASignature_eq enrichment_repr self o = false.
Proof. by destruct o. Qed.

(** C6, as the code has it.  Two signatures are equal exactly when their
    [repr] strings are equal; the string renders the label, the
    principal-component index, the fold enrichment rounded to one decimal
    and the [repr] of the enrichment record.  Signatures that agree on
    these four fields are therefore equal; the converse does not hold. *)
Theorem GOPCASignature_eq_spec (self other : GOPCASignature enrichment) :
  (GOPCASignature_eq (V:=V) enrichment_repr self (PySignature other) = true
   ↔ GOPCASignature_repr enrichment_repr self = GOPCASignature_repr enrichment_repr other)
  ∧ (sig_label self = sig_label other →
     sig_pc self = sig_pc other →
     sig_mfe self = sig_mfe other →
     sig_enrichment self = sig_enrichment other →
     GOPCASignature_eq (V:=V) enrichment_repr self (PySignature other) = true).
Proof.
  assert (GOPCASignature_eq (V:=V) enrichment_repr self (PySignature other) = true
          ↔ GOPCASignature_repr enrichment_repr self
            = GOPCASignature_repr enrichment_repr other) as Hiff.
  { unfold GOPCASignature_eq. by case_decide. }
  split; [exact Hiff|].
  intros Hl Hp Hm He. apply Hiff. unfold GOPCASignature_repr.
  by rewrite Hl, Hp, Hm, He.
Qed.
End SignatureEq.

Lemma GOPCASignature_eq_spec_witness :
  GOPCASignature_eq (V:=()) (λ _ : (), "<enr>")
    (Signature {["a"]} 1 2%float () "GO") (PySignature (Signature {["b"]} 1 2%float () "GO"))
  = true.
Proof.
  apply (proj2 (GOPCASignature_eq_spec (V:=()) (λ _ : (), "<enr>")
                  (Signature {["a"]} 1 2%float () "GO")
                  (Signature {["b"]} 1 2%float () "GO"))); reflexivity.
Defined.

(** The claim C6 as stated fails: the fold enrichments 1.0 and 1.03125 are
    different and both print as [1.0]; two signatures that differ in nothing
    else are equal. *)
Lemma GOPCASignature_eq_counterexample :
  let s1 := Signature (enrichment:=()) ∅ 1 1%float () "GO" in
  let s2 := Signature (enrichment:=()) ∅ 1 1.03125%float () "GO" in
  GOPCASignature_eq (V:=()) (λ _, "<enr>") s1 (PySignature s2) = true
  ∧ PrimFloat.eqb (sig_mfe s1) (sig_mfe s2) = false
  ∧ sig_mfe s1 ≠ sig_mfe s2.
Proof.
  split_and!; [vm_compute; reflexivity..|].
  simpl. intros H. apply (f_equal (PrimFloat.eqb 1)) in H. vm_compute in H. discriminate.
Qed.

(** ** [GOPCAResult.__init__] *)

Lemma bind_Returns_inv {A B} (m : outcome A) (k : A → outcome B) b :
  m ≫= k = Returns b → ∃ a, m = Returns a ∧ k a = Returns b.
Proof. destruct m as [a|e]; [|done]. intros H. by exists a. Qed.

Lemma py_assert_Returns_inv c u : py_assert c = Returns u → c = true.
Proof. by destruct c. Qed.

Lemma py_assert_true c : c = true → py_assert c = Returns ().
Proof. by intros ->. Qed.

Ltac bind_inv H :=
  let a := fresh "a" in
  let Ha := fresh "Ha" in
  apply bind_Returns_inv in H as (a & Ha & H);
  try apply py_assert_Returns_inv in Ha.

Section Result.
Context {V enrichment : Type}.

Local Abbreviation pyobj := (pyobj V enrichment).

Lemma assert_signatures_Returns (l : list pyobj) :
  assert_signatures l = Returns () ↔ Forall (λ s, is_signature s = true) l.
Proof.
  induction l as [|s l IH]; simpl; [by split; [constructor|]|].
  rewrite Forall_cons, <-IH. destruct (is_signature s); simpl; [|by split; [|intros []]].
  split; [by split|by intros []].
Qed.

Lemma GOPCAResult_init_inv (config genes samples W signatures S_ : pyobj) r :
  GOPCAResult_init config genes samples W signatures S_ = Returns r →
  is_config config = true
  ∧ Forall (λ s, is_signature s = true) (res_signatures r)
  ∧ res_config r = config ∧ res_W r = W ∧ res_S r = S_
  ∧ items genes = Returns (res_genes r)
  ∧ items samples = Returns (res_samples r)
  ∧ items signatures = Returns (res_signatures r)
  ∧ shape_at W 0 = Returns (length (res_genes r))
  ∧ shape_at S_ 0 = Returns (length (res_signatures r))
  ∧ shape_at S_ 1 = Returns (length (res_samples r)).
Proof.
  unfold GOPCAResult_init. intros H.
  do 16 bind_inv H. injection H as <-. simpl.
  repeat match goal with
         | H : bool_decide _ = true |- _ => apply bool_decide_eq_true_1 in H
         end.
  subst. split_and!; try done.
  apply assert_signatures_Returns. by destruct a5.
Qed.

(** C9. Every [GOPCAResult] the constructor returns satisfies the shape
    invariants: [W] has as many rows as there are genes, [S] has as many
    rows as there are signatures and as many columns as there are samples.
    When the arguments do not meet these conditions the constructor
    raises, so that no result violating them is produced; when the
    arguments have the types asserted and meet the conditions, the result
    is built from them. *)
Theorem GOPCAResult_init_shapes (config genes samples W signatures S_ : pyobj) :
  (∀ r, GOPCAResult_init config genes samples W signatures S_ = Returns r →
        shape_at (res_W r) 0 = Returns (length (res_genes r))
        ∧ shape_at (res_S r) 0 = Returns (length (res_signatures r))
        ∧ shape_at (res_S r) 1 = Returns (length (res_samples r)))
  ∧ (¬ shapes_agree genes samples W signatures S_ →
     ∃ e, GOPCAResult_init config genes samples W signatures S_ = Raises e)
  ∧ (is_config config = true →
     shapes_agree genes samples W signatures S_ →
     (∀ sigs, items signatures = Returns sigs → Forall (λ s, is_signature s = true) sigs) →
     ∃ r, GOPCAResult_init config genes samples W signatures S_ = Returns r).
Proof.
  split_and!.
  - intros r Hr. apply GOPCAResult_init_inv in Hr.
    destruct Hr as (_ & _ & _ & -> & -> & _ & _ & _ & ? & ? & ?). done.
  - intros Hno.
    destruct (GOPCAResult_init config genes samples W signatures S_) as [r|e] eqn:E;
      [|by exists e].
    exfalso. apply Hno. apply GOPCAResult_init_inv in E.
    destruct E as (_ & _ & _ & _ & _ & ? & ? & ? & ? & ? & ?).
    by exists (res_genes r), (res_samples r), (res_signatures r).
  - intros Hc (gs & ss & sigs & Hg & Hs & Hsig & Hw0 & Hs0 & Hs1) Hall.
    specialize (Hall sigs Hsig). apply assert_signatures_Returns in Hall.
    exists (Result config gs ss W sigs S_).
    unfold GOPCAResult_init.
    rewrite Hc, Hsig, Hg, Hs, Hw0, Hs0, Hs1. simpl.
    assert (is_list genes || is_tuple genes = true) as -> by (by destruct genes).
    assert (is_list samples || is_tuple samples = true) as -> by (by destruct samples).
    assert (is_list signatures || is_tuple signatures = true) as ->
      by (by destruct signatures).
    assert (is_ndarray W = true) as -> by (by destruct W).
    assert (is_ndarray S_ = true) as -> by (by destruct S_).
    simpl. rewrite Hall. simpl.
    by rewrite !bool_decide_eq_true_2.
Qed.
End Result.

(** ** [get_standardized] *)

Section Standardized.
Context {num : Type} `{!Float64Ops num}.

Lemma standardized_length x : length (standardized x) = length x.
Proof. unfold standardized. by rewrite !length_fmap. Qed.

Lemma get_standardized_Some (e : loc) (h : heap num) (a : ndarray num) :
  h !! e = Some a →
  get_standardized e h
  = Some (fresh (dom h),
          <[fresh (dom h) := NDArray (shape a) (standardized (data a))]> h).
Proof.
  intros He.
  unfold get_standardized, np_copy. rewrite He. cbn.
  unfold mean_at. rewrite lookup_insert_eq. cbn.
  unfold np_isub at 1. rewrite lookup_insert_eq. cbn.
  unfold std_at. rewrite lookup_insert_eq. cbn.
  unfold np_idiv. rewrite lookup_insert_eq. cbn.
  by rewrite !insert_insert_eq.
Qed.

(** C10. [get_standardized] does not change its argument: the array
    passed in holds the same items after the call, as does every other
    array that existed before it; the array returned is a new one,
    different from the argument and from every array that existed, and it
    holds the standardized values. *)
Theorem get_standardized_frame (e : loc) (h : heap num) (a : ndarray num) :
  h !! e = Some a →
  ∃ r h',
    get_standardized e h = Some (r, h')
    ∧ h' !! e = Some a
    ∧ r ≠ e
    ∧ h !! r = None
    ∧ (∀ l, l ≠ r → h' !! l = h !! l)
    ∧ h' !! r = Some (NDArray (shape a) (standardized (data a))).
Proof.
  intros He.
  assert (h !! fresh (dom h) = None) as Hr by (apply not_elem_of_dom, is_fresh).
  assert (fresh (dom h) ≠ e) as Hne by (intros Heq; rewrite Heq in Hr; congruence).
  eexists _, _. split; [by apply get_standardized_Some|].
  split_and!; [|done|done| |].
  - by rewrite lookup_insert_ne.
  - intros l Hl. by rewrite lookup_insert_ne.
  - by rewrite lookup_insert_eq.
Qed.
End Standardized.

Lemma get_standardized_frame_witness :
  ∃ r h',
    get_standardized 1%positive {[ 1%positive := NDArray [3] [1; 2; 3]%float ]} = Some (r, h')
    ∧ h' !! 1%positive = Some (NDArray [3] [1; 2; 3]%float)
    ∧ r ≠ 1%positive.
Proof.
  destruct (get_standardized_frame 1%positive
              {[ 1%positive := NDArray [3] [1; 2; 3]%float ]}
              (NDArray [3] [1; 2; 3]%float))
    as (r & h' & Hg & He & Hne & _).
  - apply lookup_singleton_eq.
  - exists r, h'. split_and!; [exact Hg|exact He|exact Hne].
Defined.

Example get_standardized_float_example :
  ∃ h', get_standardized 1%positive {[ 1%positive := NDArray [3] [1; 2; 3]%float ]}
        = Some (2%positive, h')
        ∧ h' !! 2%positive = Some (NDArray [3] [-1; 0; 1]%float)
        ∧ h' !! 1%positive = Some (NDArray [3] [1; 2; 3]%float).
Proof. eexists. split_and!; vm_compute; reflexivity. Qed.

(** ** Rows of a two-dimensional array *)

Section Rows.
Context {num : Type} `{!Float64Ops num}.

Lemma shape2_Returns (A : ndarray num) p n : shape A = [p; n] → shape2 A = Returns (p, n).
Proof. unfold shape2. by intros ->. Qed.

Lemma np_zeros2_well_shaped p n : well_shaped (np_zeros2 p n) p n.
Proof. split; [done|]. simpl. by rewrite length_replicate. Qed.

Lemma row_get_Returns (A : ndarray num) p n i :
  well_shaped A p n → i < p →
  ∃ r, row_get A i = Returns r ∧ length r = n ∧ r = take n (drop (i * n) (data A)).
Proof.
  intros [Hs Hd] Hi. unfold row_get. rewrite (shape2_Returns _ _ _ Hs). cbn.
  rewrite decide_True by done. eexists. split; [done|]. split; [|done].
  rewrite length_take, length_drop, Hd. nia.
Qed.

Lemma row_set_Returns (A : ndarray num) p n i v :
  well_shaped A p n → i < p → length v = n →
  ∃ A', row_set A i v = Returns A' ∧ well_shaped A' p n
        ∧ data A' = take (i * n) (data A) ++ v ++ drop (i * n + n) (data A).
Proof.
  intros [Hs Hd] Hi Hv. unfold row_set. rewrite (shape2_Returns _ _ _ Hs). cbn.
  rewrite !decide_True by done. eexists. split; [done|]. split; [|done].
  split; [done|]. simpl.
  rewrite !length_app, length_take, length_drop, Hd, Hv. nia.
Qed.

Lemma row_get_set (A A' : ndarray num) p n i v :
  well_shaped A p n → i < p → length v = n →
  row_set A i v = Returns A' → row_get A' i = Returns v.
Proof.
  intros HA Hi Hv Hset.
  destruct (row_set_Returns A p n i v HA Hi Hv) as (A'' & Hset' & HA' & Hd).
  rewrite Hset in Hset'. injection Hset' as <-.
  destruct (row_get_Returns A' p n i HA' Hi) as (r & Hget & _ & ->).
  rewrite Hget. f_equal. rewrite Hd.
  destruct HA as [_ Hlen].
  rewrite drop_app_length'; [|rewrite length_take, Hlen; nia].
  rewrite take_app_length'; done.
Qed.

Lemma row_isub_Returns (A : ndarray num) p n i x :
  well_shaped A p n → i < p →
  ∃ A', row_isub A i x = Returns A' ∧ well_shaped A' p n
        ∧ ∀ r, row_get A i = Returns r →
               row_get A' i = Returns ((λ v, f_sub v x) <$> r).
Proof.
  intros HA Hi. unfold row_isub.
  destruct (row_get_Returns A p n i HA Hi) as (r & Hget & Hlen & _).
  rewrite Hget, bind_Returns.
  destruct (row_set_Returns A p n i ((λ v, f_sub v x) <$> r) HA Hi) as (A' & Hset & HA' & _);
    [by rewrite length_fmap|].
  exists A'. split_and!; [done..|].
  intros r' [= <-]. eapply row_get_set; [exact HA|done| |done]. by rewrite length_fmap.
Qed.

Lemma row_idiv_Returns (A : ndarray num) p n i x :
  well_shaped A p n → i < p →
  ∃ A', row_idiv A i x = Returns A' ∧ well_shaped A' p n
        ∧ ∀ r, row_get A i = Returns r →
               row_get A' i = Returns ((λ v, f_div v x) <$> r).
Proof.
  intros HA Hi. unfold row_idiv.
  destruct (row_get_Returns A p n i HA Hi) as (r & Hget & Hlen & _).
  rewrite Hget, bind_Returns.
  destruct (row_set_Returns A p n i ((λ v, f_div v x) <$> r) HA Hi) as (A' & Hset & HA' & _);
    [by rewrite length_fmap|].
  exists A'. split_and!; [done..|].
  intros r' [= <-]. eapply row_get_set; [exact HA|done| |done]. by rewrite length_fmap.
Qed.

Lemma np_mean_axis0_Returns (A : ndarray num) p n :
  well_shaped A p n →
  ∃ sig, np_mean_axis0 A = Returns sig ∧ length sig = n.
Proof.
  intros [Hs _]. unfold np_mean_axis0. rewrite (shape2_Returns _ _ _ Hs). cbn.
  eexists. split; [done|]. by rewrite length_fmap, length_seq.
Qed.
End Rows.

(** ** The signature-expression calculators *)

Section SignatureExpression.
Context {num : Type} `{!Float64Ops num}.

Lemma signature_rows_step genes (E : ndarray num) p n Smat ps i g idx rest :
  well_shaped E p n → well_shaped Smat ps n → i < ps →
  list_index genes g = Returns idx → idx < p →
  ∃ Smat', well_shaped Smat' ps n
    ∧ row_get Smat' i = Returns (standardized (row_of E n idx))
    ∧ signature_rows genes E i (g :: rest) Smat
      = signature_rows genes E (S i) rest Smat'.
Proof.
  intros HE HS Hi Hidx Hlt. cbn [signature_rows]. rewrite Hidx, bind_Returns.
  destruct (row_get_Returns E p n idx HE Hlt) as (r & Hr & Hlen & Hrow).
  rewrite Hr, bind_Returns.
  destruct (row_set_Returns Smat ps n i r HS Hi Hlen) as (S1 & Hset & HS1 & _).
  rewrite Hset, bind_Returns.
  pose proof (row_get_set Smat S1 ps n i r HS Hi Hlen Hset) as Hr1.
  rewrite Hr1, bind_Returns.
  destruct (row_isub_Returns S1 ps n i (np_mean r) HS1 Hi) as (S2 & Hsub & HS2 & Hr2).
  rewrite Hsub, bind_Returns. specialize (Hr2 r Hr1). rewrite Hr2, bind_Returns.
  destruct (row_idiv_Returns S2 ps n i
              (np_std ((λ v, f_sub v (np_mean r)) <$> r) 1) HS2 Hi)
    as (S3 & Hdiv & HS3 & Hr3).
  rewrite Hdiv, bind_Returns. specialize (Hr3 _ Hr2).
  exists S3. split_and!; [done| |done].
  rewrite Hr3. unfold standardized, row_of. by rewrite <-Hrow.
Qed.

Lemma signature_rows_robust_step genes (E : ndarray num) p n Smat ps i g idx rest :
  well_shaped E p n → well_shaped Smat ps n → i < ps →
  bisect_index genes g = Returns idx → idx < p →
  ∃ Smat', well_shaped Smat' ps n
    ∧ row_get Smat' i = Returns (standardized_robust (row_of E n idx))
    ∧ signature_rows_robust genes E i (g :: rest) Smat
      = signature_rows_robust genes E (S i) rest Smat'.
Proof.
  intros HE HS Hi Hidx Hlt. cbn [signature_rows_robust]. rewrite Hidx, bind_Returns.
  destruct (row_get_Returns E p n idx HE Hlt) as (r & Hr & Hlen & Hrow).
  rewrite Hr, bind_Returns.
  destruct (row_set_Returns Smat ps n i r HS Hi Hlen) as (S1 & Hset & HS1 & _).
  rewrite Hset, bind_Returns.
  pose proof (row_get_set Smat S1 ps n i r HS Hi Hlen Hset) as Hr1.
  rewrite Hr1, !bind_Returns.
  destruct (row_isub_Returns S1 ps n i (np_median r) HS1 Hi) as (S2 & Hsub & HS2 & Hr2).
  rewrite Hsub, bind_Returns. specialize (Hr2 r Hr1).
  destruct (row_idiv_Returns S2 ps n i
              (f_mul f_mad_scale
                 (np_median (f_abs <$> ((λ v, f_sub v (np_median r)) <$> r)))) HS2 Hi)
    as (S3 & Hdiv & HS3 & Hr3).
  rewrite Hdiv, bind_Returns. specialize (Hr3 _ Hr2).
  exists S3. split_and!; [done| |done].
  rewrite Hr3. unfold standardized_robust, row_of. by rewrite <-Hrow.
Qed.

Lemma signature_rows_Returns genes (E : ndarray num) p n sig_genes Smat ps i :
  well_shaped E p n → well_shaped Smat ps n → i + length sig_genes ≤ ps →
  Forall (λ g, ∃ idx, list_index genes g = Returns idx ∧ idx < p) sig_genes →
  ∃ Smat', signature_rows genes E i sig_genes Smat = Returns Smat'
           ∧ well_shaped Smat' ps n.
Proof.
  intros HE HS Hi Hall. revert Smat i HS Hi.
  induction Hall as [|g sig_genes (idx & Hidx & Hlt) _ IH]; intros Smat i HS Hi.
  - by exists Smat.
  - simpl in Hi.
    destruct (signature_rows_step genes E p n Smat ps i g idx sig_genes)
      as (S' & HS' & _ & ->); [done|done|lia|done|done|].
    apply IH; [done|lia].
Qed.

Lemma signature_rows_robust_Returns genes (E : ndarray num) p n sig_genes Smat ps i :
  well_shaped E p n → well_shaped Smat ps n → i + length sig_genes ≤ ps →
  Forall (λ g, ∃ idx, bisect_index genes g = Returns idx ∧ idx < p) sig_genes →
  ∃ Smat', signature_rows_robust genes E i sig_genes Smat = Returns Smat'
           ∧ well_shaped Smat' ps n.
Proof.
  intros HE HS Hi Hall. revert Smat i HS Hi.
  induction Hall as [|g sig_genes (idx & Hidx & Hlt) _ IH]; intros Smat i HS Hi.
  - by exists Smat.
  - simpl in Hi.
    destruct (signature_rows_robust_step genes E p n Smat ps i g idx sig_genes)
      as (S' & HS' & _ & ->); [done|done|lia|done|done|].
    apply IH; [done|lia].
Qed.

(** C7, as the code has it.  Neither calculator checks its input for
    degeneracy.  For every expression matrix, of any number of samples
    and with any values, each calculator returns a vector with one score
    per sample as soon as its lookup finds every member gene at a row of
    the matrix; divisions by a zero denominator are carried out in the
    arithmetic and their results are part of the vector. *)
Theorem signature_expression_total genes (E : ndarray num) p n sig_genes :
  well_shaped E p n →
  (Forall (λ g, ∃ idx, list_index genes g = Returns idx ∧ idx < p) sig_genes →
   ∃ sig, get_signature_expression genes E sig_genes = Returns sig ∧ length sig = n)
  ∧ (Forall (λ g, ∃ idx, bisect_index genes g = Returns idx ∧ idx < p) sig_genes →
     ∃ sig, get_signature_expression_robust genes E sig_genes = Returns sig
            ∧ length sig = n).
Proof.
  intros HE. pose proof HE as [Hs _]. split; intros Hall.
  - unfold get_signature_expression. rewrite (shape2_Returns _ _ _ Hs), bind_Returns.
    destruct (signature_rows_Returns genes E p n sig_genes
                (np_zeros2 (length sig_genes) n) (length sig_genes) 0)
      as (S' & -> & HS'); [done|apply np_zeros2_well_shaped|lia|done|].
    rewrite bind_Returns.
    destruct (np_mean_axis0_Returns S' _ _ HS') as (sig & -> & Hlen).
    by exists sig.
  - unfold get_signature_expression_robust.
    rewrite (shape2_Returns _ _ _ Hs), bind_Returns.
    destruct (signature_rows_robust_Returns genes E p n sig_genes
                (np_zeros2 (length sig_genes) n) (length sig_genes) 0)
      as (S' & -> & HS'); [done|apply np_zeros2_well_shaped|lia|done|].
    rewrite bind_Returns.
    destruct (np_mean_axis0_Returns S' _ _ HS') as (sig & -> & Hlen).
    by exists sig.
Qed.
End SignatureExpression.

Lemma signature_expression_total_witness :
  ∃ sig, get_signature_expression ["g"] (NDArray [1; 2] [1; 1]%float) ["g"] = Returns sig
         ∧ length sig = 2.
Proof.
  refine (proj1 (signature_expression_total ["g"] (NDArray [1; 2] [1; 1]%float) 1 2 ["g"]
                   (conj eq_refl eq_refl)) _).
  constructor; [|constructor]. exists 0. split; [reflexivity|lia].
Defined.

(** The claim C7 as stated fails on binary64: with one sample, with a gene
    of zero standard deviation and with a gene of zero MAD the calculators
    return, and the results of the divisions by zero are the scores. *)
Lemma signature_expression_degenerate_counterexample :
  get_signature_expression ["g"] (NDArray [1; 1] [1%float]) ["g"] = Returns [nan]
  ∧ get_signature_expression_robust ["g"] (NDArray [1; 1] [1%float]) ["g"] = Returns [nan]
  ∧ get_signature_expression ["g"] (NDArray [1; 2] [1; 1]%float) ["g"] = Returns [nan; nan]
  ∧ get_signature_expression_robust ["g"] (NDArray [1; 3] [1; 1; 2]%float) ["g"]
    = Returns [nan; nan; infinity].
Proof. split_and!; vm_compute; reflexivity. Qed.

Section RoundTrip.
Context {num : Type} `{!Float64Ops num}.

Lemma list_index_elem genes g :
  g ∈ genes →
  ∃ idx, list_index genes g = Returns idx ∧ genes !! idx = Some g ∧ idx < length genes.
Proof.
  induction genes as [|x genes IH]; intros Hin; [by apply elem_of_nil in Hin|].
  simpl. destruct (decide (x = g)) as [->|Hne].
  - exists 0. split_and!; [done..|simpl; lia].
  - apply elem_of_cons in Hin as [->|Hin]; [done|].
    destruct (IH Hin) as (idx & -> & Hl & Hlt).
    exists (S idx). split_and!; [done..|simpl; lia].
Qed.

Lemma lookup_default_seq (d : num) (l : list num) :
  (λ j, default d (l !! j)) <$> seq 0 (length l) = l.
Proof.
  apply list_eq. intros j. rewrite list_lookup_fmap.
  destruct (l !! j) as [x|] eqn:E.
  - rewrite (proj2 (lookup_seq 0 (length l) j j)); [by simpl; rewrite E|].
    split; [done|]. by eapply lookup_lt_Some.
  - rewrite lookup_seq_ge; [done|]. by apply lookup_ge_None.
Qed.

(** The mean over the rows of a one-row array: each item of the row is
    added to the initial [0.0] of the sum and divided by the count 1. *)
Lemma np_mean_axis0_single (A : ndarray num) n v :
  well_shaped A 1 n → row_get A 0 = Returns v →
  np_mean_axis0 A = Returns ((λ x, f_div (f_add f_zero x) (f_of_nat 1)) <$> v).
Proof.
  intros [Hs Hd]. unfold row_get, np_mean_axis0.
  rewrite (shape2_Returns _ _ _ Hs). cbn.
  rewrite drop_0, take_ge by lia. intros [= <-]. f_equal.
  unfold np_sum. simpl.
  transitivity ((λ x, f_div (f_add f_zero x) (f_of_nat 1))
                  <$> ((λ j, default f_zero (data A !! j)) <$> seq 0 n)).
  - by rewrite <-list_fmap_compose.
  - f_equal. replace n with (length (data A)) by lia. apply lookup_default_seq.
Qed.
End RoundTrip.

Lemma float_mean_of_one (v : float) :
  f_div (f_add f_zero v) (f_of_nat 1) = positive_zero v.
Proof.
  cbn [f_div f_add f_zero f_of_nat float64].
  change (of_uint63 (Uint63.of_Z (Z.of_nat 1))) with 1%float.
  rewrite float_div_one. apply float_add_zero.
Qed.

(** C8, as the code has it on binary64.  For every expression matrix [E]
    and every gene [g] of the gene list, the scores
    [get_signature_expression] computes for the signature [[g]] are the
    items of the array [get_standardized] returns for the row of [g],
    except that an item [-0.0] has become [0.0]: the mean over the single
    row adds each item to [0.0] and divides it by 1. *)
Theorem single_gene_round_trip genes (E : ndarray float) n g :
  well_shaped E (length genes) n →
  g ∈ genes →
  ∃ idx sig,
    list_index genes g = Returns idx
    ∧ genes !! idx = Some g
    ∧ get_signature_expression genes E [g] = Returns sig
    ∧ ∀ (h : heap float) e a,
        h !! e = Some a → data a = row_of E n idx →
        ∃ r h' a', get_standardized e h = Some (r, h')
                   ∧ h' !! r = Some a' ∧ sig = positive_zero <$> data a'.
Proof.
  intros HE Hg.
  destruct (list_index_elem genes g Hg) as (idx & Hidx & Hl & Hlt).
  exists idx, (positive_zero <$> standardized (row_of E n idx)). split_and!; [done..| |].
  - unfold get_signature_expression. pose proof HE as [Hs _].
    rewrite (shape2_Returns _ _ _ Hs), bind_Returns.
    destruct (signature_rows_step genes E (length genes) n
                (np_zeros2 (length [g]) n) 1 0 g idx [])
      as (S' & HS' & Hrow & ->); [done|apply np_zeros2_well_shaped|simpl; lia|done..|].
    cbn [signature_rows]. rewrite bind_Returns.
    rewrite (np_mean_axis0_single S' n _ HS' Hrow), bind_Returns. f_equal.
    apply list_fmap_ext. intros _ v _. apply float_mean_of_one.
  - intros h e a He Ha.
    eexists _, _, _. split_and!; [by apply get_standardized_Some| |].
    + by rewrite lookup_insert_eq.
    + simpl. by rewrite Ha.
Qed.

Lemma single_gene_round_trip_witness :
  ∃ idx sig,
    list_index ["a"; "b"] "b" = Returns idx
    ∧ get_signature_expression ["a"; "b"]
        (NDArray [2; 3] [1; 2; 3; -0x1p-1074; 3; -3]%float) ["b"] = Returns sig.
Proof.
  destruct (single_gene_round_trip ["a"; "b"]
              (NDArray [2; 3] [1; 2; 3; -0x1p-1074; 3; -3]%float) 3 "b")
    as (idx & sig & Hidx & _ & Hsig & _).
  - split; reflexivity.
  - apply elem_of_cons. right. apply elem_of_cons. by left.
  - exists idx, sig. split; [exact Hidx|exact Hsig].
Defined.

(** The claim C8 as stated fails on binary64: for the row
    [[-5e-324, 3, -3]] the array [get_standardized] returns starts with
    [-0.0], and the score vector with [0.0]. *)
Lemma single_gene_round_trip_counterexample :
  (∃ r h' a',
     get_standardized 1%positive
       {[ 1%positive := NDArray [3] [-0x1p-1074; 3; -3]%float ]} = Some (r, h')
     ∧ h' !! r = Some a'
     ∧ data a' = [-0; 1; -1]%float)
  ∧ get_signature_expression ["g"] (NDArray [1; 3] [-0x1p-1074; 3; -3]%float) ["g"]
    = Returns [0; 1; -1]%float
  ∧ [0; 1; -1]%float ≠ [-0; 1; -1]%float.
Proof.
  split_and!.
  - eexists _, _, _. split_and!.
    + apply get_standardized_Some, lookup_singleton_eq.
    + apply lookup_insert_eq.
    + vm_compute. reflexivity.
  - vm_compute. reflexivity.
  - intros H. apply (f_equal (λ l, classify (default 1%float (head l)))) in H.
    vm_compute in H. discriminate H.
Qed.

(** The round trip on an ordinary row. *)
Example single_gene_round_trip_float :
  get_signature_expression ["a"; "b"] (NDArray [2; 3] [1; 2; 3; 4; 6; 11]%float) ["b"]
  = Returns (standardized [4; 6; 11]%float).
Proof. vm_compute. reflexivity. Qed.

(** ** Binary search needs no more than [hi - lo] iterations *)

Lemma bisect_left_loop_fuel fuel fuel' a x lo hi :
  hi - lo ≤ fuel → hi - lo ≤ fuel' →
  bisect_left_loop fuel a x lo hi = bisect_left_loop fuel' a x lo hi.
Proof.
  revert fuel' lo hi. induction fuel as [|fuel IH]; intros fuel' lo hi Hf Hf'.
  - destruct fuel' as [|fuel']; cbn [bisect_left_loop]; [done|].
    by rewrite decide_False by lia.
  - destruct fuel' as [|fuel']; cbn [bisect_left_loop].
    + by rewrite decide_False by lia.
    + destruct (decide (lo < hi)) as [Hlt|]; [|done].
      pose proof (Nat.div_mod (lo + hi) 2 ltac:(done)) as Hdiv.
      pose proof (Nat.mod_upper_bound (lo + hi) 2 ltac:(done)) as Hmod.
      destruct (a !! ((lo + hi) / 2)) as [y|]; [|done].
      destruct (String.ltb y x); apply IH; lia.
Qed.

Lemma bisect_index_Returns_inv a x i : bisect_index a x = Returns i → a !! i = Some x.
Proof.
  unfold bisect_index. destruct (a !! bisect_left a x) as [y|] eqn:E; [|done].
  case_decide as Hy; [|done]. intros [= <-]. by rewrite E, Hy.
Qed.

Lemma list_index_Returns_inv genes g i : list_index genes g = Returns i → genes !! i = Some g.
Proof.
  revert i. induction genes as [|x genes IH]; intros i; simpl; [done|].
  case_decide as Hx; [by intros [= <-]; rewrite Hx|].
  destruct (list_index genes g) as [idx|] eqn:E; [|done].
  intros [= <-]. simpl. by apply IH.
Qed.

(** * Further properties *)

(** ** [get_qvalues]: the uninitialized vector and the running minimum *)

Section QValuesLoop.
Context {num : Type} `{!Float64Ops num}.

Lemma assign_all_covered tr (b1 b2 : list num) :
  length b1 = length b2 →
  NoDup ((λ t : nat * nat * num, t.1.1) <$> tr) →
  (∀ i, i < length b1 → i ∈ (λ t : nat * nat * num, t.1.1) <$> tr) →
  foldl assign b1 tr = foldl assign b2 tr.
Proof.
  intros Hlen Hnd Hcov. apply list_eq. intros i.
  destruct (decide (i < length b1)) as [Hi|Hi].
  - destruct (proj1 (list_elem_of_fmap _ _ _) (Hcov i Hi)) as (t & -> & Ht).
    rewrite !assign_all_lookup; [done|done|done|lia|done|done|done].
  - rewrite !lookup_ge_None_2; [done|..]; rewrite assign_all_length; lia.
Qed.

(** [qvals = np.empty(n)] is never read and every entry of it is assigned:
    whatever the vector holds at first, the loop returns the same q-values. *)
Theorem get_qvalues_buffer_independent (pvals : list num) (pi_zero : num)
    (garbage : list num) :
  length garbage = length pvals →
  qvalues_loop pvals pi_zero (length pvals) (reverse (argsort pvals)) 1 f_one garbage
  = get_qvalues pvals pi_zero.
Proof.
  intros Hlen. unfold get_qvalues.
  assert (Forall (λ i, i < length pvals) (reverse (argsort pvals))) as Hidx
    by apply Forall_reverse, argsort_lt.
  rewrite !qvalues_loop_trace; [|done|by rewrite length_replicate|done..].
  f_equal. apply assign_all_covered.
  - by rewrite length_replicate.
  - rewrite qvalues_trace_indices, reverse_Permutation. apply argsort_NoDup.
  - intros i Hi. rewrite qvalues_trace_indices, reverse_Permutation, argsort_perm.
    apply elem_of_seq. lia.
Qed.
End QValuesLoop.

Lemma get_qvalues_buffer_independent_witness :
  qvalues_loop [0.5; 0.25]%float 1%float 2 (reverse (argsort [0.5; 0.25]%float)) 1 1%float
    [nan; infinity]
  = get_qvalues [0.5; 0.25]%float 1%float.
Proof.
  exact (get_qvalues_buffer_independent [0.5; 0.25]%float 1%float [nan; infinity] eq_refl).
Defined.

Section QValuesRunningMin.
Context {num : Type} `{!Float64Ops num} `{!OrderLaws num}.

Lemma py_min_cases (x y : num) : py_min x y = x ∨ py_min x y = y.
Proof. unfold py_min. destruct (f_ltb y x); auto. Qed.

Lemma qvalues_trace_running_min pvals pi_zero n a s q0 k t :
  qvalues_trace pvals pi_zero n a s q0 !! k = Some t →
  f_le t.2 q0
  ∧ (∀ l u, l ≤ k → qvalues_trace pvals pi_zero n a s q0 !! l = Some u →
       f_le t.2 (candidate pi_zero n (default f_zero (pvals !! u.1.1)) u.1.2))
  ∧ (t.2 = q0
     ∨ ∃ l u, l ≤ k ∧ qvalues_trace pvals pi_zero n a s q0 !! l = Some u
              ∧ t.2 = candidate pi_zero n (default f_zero (pvals !! u.1.1)) u.1.2).
Proof.
  revert s q0 k. induction a as [|i a IH]; intros s q0 k; [done|].
  cbn [qvalues_trace].
  set (c := candidate pi_zero n (default f_zero (pvals !! i)) s).
  destruct k as [|k]; cbn [lookup list_lookup].
  - intros [= <-]. cbn [fst snd]. split_and!.
    + apply py_min_le_r.
    + intros l u Hl. assert (l = 0) as -> by lia. intros [= <-]. apply py_min_le_l.
    + destruct (py_min_cases c q0) as [Hc|Hq]; [right|by left].
      exists 0, (i, s, py_min c q0). split_and!; [lia|done|exact Hc].
  - intros Ht. destruct (IH (S s) (py_min c q0) k Ht) as (Hle & Hlow & Hatt). split_and!.
    + eapply f_le_trans; [exact Hle|apply py_min_le_r].
    + intros [|l] u Hl.
      * intros [= <-]. cbn [fst snd]. eapply f_le_trans; [exact Hle|apply py_min_le_l].
      * intros Hu. apply (Hlow l u); [lia|done].
    + destruct Hatt as [Heq|(l & u & Hl & Hu & Heq)].
      * destruct (py_min_cases c q0) as [Hc|Hq].
        -- right. exists 0, (i, s, py_min c q0). split_and!; [lia|done|].
           cbn [fst snd]. by rewrite Heq.
        -- left. by rewrite Heq.
      * right. exists (S l), u. split_and!; [lia|done|done].
Qed.

Lemma visit_steps_elem pvals pi_zero j s q :
  (j, s, q) ∈ visit_steps pvals pi_zero ↔ visit_steps pvals pi_zero !! (s - 1) = Some (j, s, q) ∧ 1 ≤ s.
Proof.
  split.
  - intros Hin. apply list_elem_of_lookup in Hin as [k Hk].
    pose proof (qvalues_trace_counter _ _ _ _ _ _ _ _ Hk) as [Hs _]. simpl in Hs.
    assert (s - 1 = k) as -> by lia. split; [done|lia].
  - intros [Hl _]. by eapply list_elem_of_lookup_2.
Qed.

(** Each q-value is the running minimum of the walk: it is a lower bound of
    1.0 and of the candidates [pi_zero * p * n / s] of all entries visited
    up to its own step, and it is 1.0 or one of these candidates. *)
Theorem get_qvalues_running_minimum (pvals : list num) (pi_zero : num) :
  ∃ qvals,
    get_qvalues pvals pi_zero = Returns qvals
    ∧ ∀ i q, qvals !! i = Some q →
        ∃ s, (i, s, q) ∈ visit_steps pvals pi_zero
          ∧ f_le q f_one
          ∧ (∀ j s' q' p_j,
               (j, s', q') ∈ visit_steps pvals pi_zero → s' ≤ s →
               pvals !! j = Some p_j →
               f_le q (candidate pi_zero (length pvals) p_j s'))
          ∧ (q = f_one
             ∨ ∃ j s' q' p_j,
                 (j, s', q') ∈ visit_steps pvals pi_zero ∧ s' ≤ s
                 ∧ pvals !! j = Some p_j
                 ∧ q = candidate pi_zero (length pvals) p_j s').
Proof.
  exists (qvalues_of pvals pi_zero). split; [apply get_qvalues_Returns|].
  intros i q Hq.
  assert (i < length pvals) as Hi.
  { rewrite <-(qvalues_of_length pvals pi_zero). by eapply lookup_lt_Some. }
  destruct (visit_steps_visited pvals pi_zero i Hi) as (s & q' & Hin & Hq').
  rewrite Hq in Hq'. injection Hq' as <-.
  exists s. split; [done|].
  apply visit_steps_elem in Hin as [Hl Hs].
  destruct (qvalues_trace_running_min _ _ _ _ _ _ _ _ Hl) as (Hone & Hlow & Hatt).
  assert (∀ j s' q', visit_steps pvals pi_zero !! (s' - 1) = Some (j, s', q') →
          ∀ p_j, pvals !! j = Some p_j → default f_zero (pvals !! j) = p_j) as Hdef
    by (intros j s' q' _ p_j Hp; by rewrite Hp).
  split_and!; [exact Hone| |].
  - intros j s' q' p_j Hj Hle Hp. apply visit_steps_elem in Hj as [Hj Hs'].
    specialize (Hlow (s' - 1) (j, s', q') ltac:(lia) Hj). cbn [fst snd] in Hlow.
    by rewrite Hp in Hlow.
  - destruct Hatt as [Heq|(l & [[j s'] q'] & Hle & Hu & Heq)]; [by left|right].
    cbn [fst snd] in Heq.
    pose proof (qvalues_trace_counter _ _ _ _ _ _ _ _ Hu) as [Hs' Hw].
    cbn [fst snd] in Hs', Hw. subst s'.
    assert (j < length pvals) as Hj.
    { apply list_elem_of_lookup_2 in Hw. rewrite reverse_Permutation, argsort_perm in Hw.
      apply elem_of_seq in Hw. lia. }
    destruct (lookup_lt_is_Some_2 pvals j Hj) as [p_j Hp].
    exists j, (1 + l), q', p_j. split_and!; [|lia|done|].
    + by eapply list_elem_of_lookup_2.
    + by rewrite Hp in Heq.
Qed.
End QValuesRunningMin.

Lemma get_qvalues_running_minimum_witness :
  ∃ qvals : list R, get_qvalues [(1/2)%R; (1/4)%R] 1%R = Returns qvals.
Proof.
  destruct (get_qvalues_running_minimum (num:=R) [(1/2)%R; (1/4)%R] 1%R) as (qvals & Hq & _).
  by exists qvals.
Defined.

(** ** The signature-expression calculators: lookup errors and the scores *)

Lemma list_index_missing genes g : g ∉ genes → list_index genes g = Raises ValueError.
Proof.
  induction genes as [|x genes IH]; intros Hg; [done|].
  apply not_elem_of_cons in Hg as [Hne Hg]. cbn [list_index].
  rewrite decide_False by done. by rewrite IH.
Qed.

Lemma list_index_found genes g :
  g ∈ genes → ∃ idx, list_index genes g = Returns idx ∧ idx < length genes.
Proof.
  induction genes as [|x genes IH]; intros Hin; [by apply elem_of_nil in Hin|].
  cbn [list_index]. destruct (decide (x = g)) as [->|Hne].
  - exists 0. split; [done|simpl; lia].
  - apply elem_of_cons in Hin as [->|Hin]; [done|].
    destruct (IH Hin) as (idx & -> & Hlt). exists (S idx). split; [done|simpl; lia].
Qed.

Lemma bisect_index_cases a x :
  (∃ idx, bisect_index a x = Returns idx ∧ a !! idx = Some x)
  ∨ bisect_index a x = Raises ValueError.
Proof.
  unfold bisect_index. destruct (a !! bisect_left a x) as [y|] eqn:E; [|by right].
  case_decide as Hy; [|by right]. left. eexists. split; [done|]. by rewrite E, Hy.
Qed.

Section SignatureErrors.
Context {num : Type} `{!Float64Ops num}.

Lemma signature_rows_missing genes (E : ndarray num) n sig_genes Smat ps i g :
  well_shaped E (length genes) n → well_shaped Smat ps n →
  i + length sig_genes ≤ ps →
  g ∈ sig_genes → g ∉ genes →
  signature_rows genes E i sig_genes Smat = Raises ValueError.
Proof.
  intros HE. revert Smat i.
  induction sig_genes as [|g0 rest IH]; intros Smat i HS Hi Hin Hg;
    [by apply elem_of_nil in Hin|].
  simpl in Hi. destruct (decide (g0 ∈ genes)) as [Hg0|Hg0].
  - destruct (list_index_found genes g0 Hg0) as (idx & Hidx & Hlt).
    destruct (signature_rows_step genes E (length genes) n Smat ps i g0 idx rest)
      as (S' & HS' & _ & ->); [done|done|lia|done|done|].
    apply IH; [done|lia| |done].
    apply elem_of_cons in Hin as [->|Hin]; [done|done].
  - cbn [signature_rows]. by rewrite (list_index_missing _ _ Hg0).
Qed.

Lemma signature_rows_robust_missing genes (E : ndarray num) n sig_genes Smat ps i g :
  well_shaped E (length genes) n → well_shaped Smat ps n →
  i + length sig_genes ≤ ps →
  g ∈ sig_genes → g ∉ genes →
  signature_rows_robust genes E i sig_genes Smat = Raises ValueError.
Proof.
  intros HE. revert Smat i.
  induction sig_genes as [|g0 rest IH]; intros Smat i HS Hi Hin Hg;
    [by apply elem_of_nil in Hin|].
  simpl in Hi. destruct (bisect_index_cases genes g0) as [(idx & Hidx & Hl)|Hraise].
  - destruct (signature_rows_robust_step genes E (length genes) n Smat ps i g0 idx rest)
      as (S' & HS' & _ & ->); [done|done|lia|done|by eapply lookup_lt_Some|].
    apply IH; [done|lia| |done].
    apply elem_of_cons in Hin as [->|Hin]; [|done].
    exfalso. apply Hg. by eapply list_elem_of_lookup_2.
  - cbn [signature_rows_robust]. by rewrite Hraise.
Qed.

(** When a member gene of the signature is not in the gene list, both
    calculators raise ValueError (for a matrix with one row per gene); no
    score vector is returned for the genes that are there. *)
Theorem signature_expression_missing_gene genes (E : ndarray num) n sig_genes g :
  well_shaped E (length genes) n →
  g ∈ sig_genes → g ∉ genes →
  get_signature_expression genes E sig_genes = Raises ValueError
  ∧ get_signature_expression_robust genes E sig_genes = Raises ValueError.
Proof.
  intros HE Hin Hg. pose proof HE as [Hs _].
  unfold get_signature_expression, get_signature_expression_robust.
  rewrite (shape2_Returns _ _ _ Hs), !bind_Returns.
  rewrite (signature_rows_missing genes E n sig_genes _ (length sig_genes) 0 g);
    [|done|apply np_zeros2_well_shaped|lia|done|done].
  rewrite (signature_rows_robust_missing genes E n sig_genes _ (length sig_genes) 0 g);
    [|done|apply np_zeros2_well_shaped|lia|done|done].
  done.
Qed.
End SignatureErrors.

Lemma signature_expression_missing_gene_witness :
  get_signature_expression ["a"; "b"] (NDArray [2; 2] [1; 2; 3; 5]%float) ["b"; "c"]
  = Raises ValueError
  ∧ get_signature_expression_robust ["a"; "b"] (NDArray [2; 2] [1; 2; 3; 5]%float) ["b"; "c"]
    = Raises ValueError.
Proof.
  apply (signature_expression_missing_gene ["a"; "b"] (NDArray [2; 2] [1; 2; 3; 5]%float)
           2 ["b"; "c"] "c").
  - split; reflexivity.
  - apply elem_of_cons. right. apply elem_of_cons. by left.
  - intros Hc. apply elem_of_cons in Hc as [Hc|Hc]; [discriminate|].
    apply elem_of_cons in Hc as [Hc|Hc]; [discriminate|]. by apply elem_of_nil in Hc.
Defined.

Section SignatureScores.
Context {num : Type} `{!Float64Ops num}.

Lemma lookup_row (d : list num) n k j :
  j < n → take n (drop (k * n) d) !! j = d !! (k * n + j).
Proof. intros Hj. by rewrite lookup_take_lt, lookup_drop. Qed.

(** Writing row [i] leaves the other rows as they are. *)
Lemma row_set_frame (A A' : ndarray num) p n i v k :
  well_shaped A p n → i < p → length v = n →
  row_set A i v = Returns A' → k ≠ i → row_get A' k = row_get A k.
Proof.
  intros HA Hi Hv Hset Hk.
  destruct (row_set_Returns A p n i v HA Hi Hv) as (A'' & Hset' & HA' & Hd).
  rewrite Hset in Hset'. injection Hset' as <-.
  destruct HA as [Hs Hlen], HA' as [Hs' Hlen'].
  unfold row_get. rewrite (shape2_Returns _ _ _ Hs), (shape2_Returns _ _ _ Hs'). cbn.
  destruct (decide (k < p)) as [Hkp|]; [|done]. f_equal.
  apply list_eq. intros j. destruct (decide (j < n)) as [Hj|Hj].
  - rewrite !lookup_row by done. rewrite Hd.
    assert (length (take (i * n) (data A)) = i * n) as Htake
      by (rewrite length_take_le; [done|rewrite Hlen; nia]).
    destruct (decide (k < i)) as [Hlt|Hge].
    + rewrite lookup_app_l by (rewrite Htake; nia).
      rewrite lookup_take_lt by nia. done.
    + rewrite lookup_app_r by (rewrite Htake; nia). rewrite Htake.
      rewrite lookup_app_r by (rewrite Hv; nia). rewrite Hv.
      rewrite lookup_drop. f_equal. nia.
  - by rewrite !lookup_take_ge by lia.
Qed.

Lemma row_isub_frame (A A' : ndarray num) p n i x k :
  well_shaped A p n → i < p →
  row_isub A i x = Returns A' → k ≠ i → row_get A' k = row_get A k.
Proof.
  intros HA Hi. unfold row_isub.
  destruct (row_get_Returns A p n i HA Hi) as (r & -> & Hlen & _).
  rewrite bind_Returns. intros Hset Hk.
  eapply row_set_frame; [exact HA|done| |exact Hset|done]. by rewrite length_fmap.
Qed.

Lemma row_idiv_frame (A A' : ndarray num) p n i x k :
  well_shaped A p n → i < p →
  row_idiv A i x = Returns A' → k ≠ i → row_get A' k = row_get A k.
Proof.
  intros HA Hi. unfold row_idiv.
  destruct (row_get_Returns A p n i HA Hi) as (r & -> & Hlen & _).
  rewrite bind_Returns. intros Hset Hk.
  eapply row_set_frame; [exact HA|done| |exact Hset|done]. by rewrite length_fmap.
Qed.

(** One turn of either loop: row [i] gets the values [f] computes from
    the row of the gene, by a copy, a subtraction and a division in place;
    the other rows stay. *)
Lemma row_update_frame (E Smat : ndarray num) p n ps i idx (x1 x2 : list num → num) :
  well_shaped E p n → well_shaped Smat ps n → i < ps → idx < p →
  ∃ S1 S2 S3,
    row_set Smat i (row_of E n idx) = Returns S1
    ∧ row_get S1 i = Returns (row_of E n idx)
    ∧ row_isub S1 i (x1 (row_of E n idx)) = Returns S2
    ∧ row_get S2 i = Returns ((λ v, f_sub v (x1 (row_of E n idx))) <$> row_of E n idx)
    ∧ row_idiv S2 i (x2 ((λ v, f_sub v (x1 (row_of E n idx))) <$> row_of E n idx))
      = Returns S3
    ∧ well_shaped S3 ps n
    ∧ row_get E idx = Returns (row_of E n idx)
    ∧ row_get S3 i
      = Returns ((λ v, f_div v
                    (x2 ((λ v, f_sub v (x1 (row_of E n idx))) <$> row_of E n idx)))
                 <$> ((λ v, f_sub v (x1 (row_of E n idx))) <$> row_of E n idx))
    ∧ ∀ k, k ≠ i → row_get S3 k = row_get Smat k.
Proof.
  intros HE HS Hi Hlt.
  destruct (row_get_Returns E p n idx HE Hlt) as (r & Hr & Hlen & Hrow).
  fold (row_of E n idx) in Hrow. subst r.
  destruct (row_set_Returns Smat ps n i _ HS Hi Hlen) as (S1 & Hset & HS1 & _).
  pose proof (row_get_set Smat S1 ps n i _ HS Hi Hlen Hset) as Hr1.
  destruct (row_isub_Returns S1 ps n i (x1 (row_of E n idx)) HS1 Hi)
    as (S2 & Hsub & HS2 & Hr2).
  specialize (Hr2 _ Hr1).
  destruct (row_idiv_Returns S2 ps n i
              (x2 ((λ v, f_sub v (x1 (row_of E n idx))) <$> row_of E n idx)) HS2 Hi)
    as (S3 & Hdiv & HS3 & Hr3).
  specialize (Hr3 _ Hr2).
  exists S1, S2, S3. split_and!; [done..|].
  intros k Hk.
  rewrite (row_idiv_frame S2 S3 ps n i _ k HS2 Hi Hdiv Hk).
  rewrite (row_isub_frame S1 S2 ps n i _ k HS1 Hi Hsub Hk).
  by rewrite (row_set_frame Smat S1 ps n i _ k HS Hi Hlen Hset Hk).
Qed.

Lemma signature_rows_step_frame genes (E : ndarray num) p n Smat ps i g idx rest :
  well_shaped E p n → well_shaped Smat ps n → i < ps →
  list_index genes g = Returns idx → idx < p →
  ∃ Smat', well_shaped Smat' ps n
    ∧ row_get Smat' i = Returns (standardized (row_of E n idx))
    ∧ (∀ k, k ≠ i → row_get Smat' k = row_get Smat k)
    ∧ signature_rows genes E i (g :: rest) Smat
      = signature_rows genes E (S i) rest Smat'.
Proof.
  intros HE HS Hi Hidx Hlt.
  destruct (row_update_frame E Smat p n ps i idx np_mean (λ r, np_std r 1) HE HS Hi Hlt)
    as (S1 & S2 & S3 & Hset & Hr1 & Hsub & Hr2 & Hdiv & HS3 & HrE & Hr3 & Hframe).
  exists S3. split_and!; [done|exact Hr3|exact Hframe|].
  cbn [signature_rows].
  rewrite Hidx, bind_Returns, HrE, bind_Returns, Hset, bind_Returns, Hr1, bind_Returns.
  rewrite Hsub, bind_Returns, Hr2, bind_Returns, Hdiv, bind_Returns. done.
Qed.

Lemma signature_rows_robust_step_frame genes (E : ndarray num) p n Smat ps i g idx rest :
  well_shaped E p n → well_shaped Smat ps n → i < ps →
  bisect_index genes g = Returns idx → idx < p →
  ∃ Smat', well_shaped Smat' ps n
    ∧ row_get Smat' i = Returns (standardized_robust (row_of E n idx))
    ∧ (∀ k, k ≠ i → row_get Smat' k = row_get Smat k)
    ∧ signature_rows_robust genes E i (g :: rest) Smat
      = signature_rows_robust genes E (S i) rest Smat'.
Proof.
  intros HE HS Hi Hidx Hlt.
  destruct (row_update_frame E Smat p n ps i idx np_median
              (λ r, f_mul f_mad_scale (np_median (f_abs <$> r))) HE HS Hi Hlt)
    as (S1 & S2 & S3 & Hset & Hr1 & Hsub & Hr2 & Hdiv & HS3 & HrE & Hr3 & Hframe).
  exists S3. split_and!; [done|exact Hr3|exact Hframe|].
  cbn [signature_rows_robust].
  rewrite Hidx, bind_Returns, HrE, bind_Returns, Hset, bind_Returns, Hr1, !bind_Returns.
  rewrite Hsub, bind_Returns, Hdiv, bind_Returns. done.
Qed.
End SignatureScores.

Section SignatureFormula.
Context {num : Type} `{!Float64Ops num}.

Lemma row_get_inv (A : ndarray num) p n k r :
  well_shaped A p n → row_get A k = Returns r → k < p ∧ r = row_of A n k.
Proof.
  intros [Hs _]. unfold row_get. rewrite (shape2_Returns _ _ _ Hs). cbn.
  case_decide; [|done]. by intros [= <-].
Qed.

Lemma np_mean_axis0_rows (A : ndarray num) p n rows :
  well_shaped A p n → length rows = p →
  (∀ k r, rows !! k = Some r → row_get A k = Returns r) →
  np_mean_axis0 A = Returns (column_means rows n).
Proof.
  intros HA Hlen Hrows. pose proof HA as [Hs _].
  unfold np_mean_axis0. rewrite (shape2_Returns _ _ _ Hs). cbn. f_equal.
  unfold column_means. apply list_fmap_ext. intros j' j Hj.
  apply lookup_seq in Hj as [-> Hj]. simpl in Hj |- *. rewrite Hlen. f_equal. f_equal.
  apply list_eq. intros k. rewrite !list_lookup_fmap.
  destruct (rows !! k) as [r|] eqn:Hr.
  - assert (k < p) as Hk by (rewrite <-Hlen; by eapply lookup_lt_Some).
    rewrite (lookup_seq_lt 0 p k Hk). simpl.
    destruct (row_get_inv A p n k r HA (Hrows k r Hr)) as [_ ->].
    unfold row_of. by rewrite lookup_row.
  - apply lookup_ge_None in Hr. rewrite lookup_seq_ge by lia. done.
Qed.

Lemma signature_rows_rows genes (E : ndarray num) p n sig_genes idxs Smat ps i :
  well_shaped E p n → well_shaped Smat ps n → i + length sig_genes ≤ ps →
  Forall2 (λ g idx, list_index genes g = Returns idx ∧ idx < p) sig_genes idxs →
  ∃ S', signature_rows genes E i sig_genes Smat = Returns S'
    ∧ well_shaped S' ps n
    ∧ (∀ k, k < i → row_get S' k = row_get Smat k)
    ∧ (∀ k idx, idxs !! k = Some idx →
         row_get S' (i + k) = Returns (standardized (row_of E n idx))).
Proof.
  intros HE HS Hi Hall. revert Smat i HS Hi.
  induction Hall as [|g idx sig_genes idxs [Hidx Hlt] _ IH]; intros Smat i HS Hi.
  - exists Smat. split_and!; [done..|]. intros k idx Hk. done.
  - simpl in Hi.
    destruct (signature_rows_step_frame genes E p n Smat ps i g idx sig_genes)
      as (S1 & HS1 & Hrow & Hframe & ->); [done|done|lia|done|done|].
    destruct (IH S1 (S i) HS1 ltac:(lia)) as (S' & -> & HS' & Hkeep & Hrows).
    exists S'. split_and!; [done..| |].
    + intros k Hk. rewrite Hkeep by lia. apply Hframe. lia.
    + intros [|k] idx' Hk.
      * injection Hk as <-. rewrite Nat.add_0_r, Hkeep by lia. done.
      * replace (i + S k) with (S i + k) by lia. by apply Hrows.
Qed.

Lemma signature_rows_robust_rows genes (E : ndarray num) p n sig_genes idxs Smat ps i :
  well_shaped E p n → well_shaped Smat ps n → i + length sig_genes ≤ ps →
  Forall2 (λ g idx, bisect_index genes g = Returns idx ∧ idx < p) sig_genes idxs →
  ∃ S', signature_rows_robust genes E i sig_genes Smat = Returns S'
    ∧ well_shaped S' ps n
    ∧ (∀ k, k < i → row_get S' k = row_get Smat k)
    ∧ (∀ k idx, idxs !! k = Some idx →
         row_get S' (i + k) = Returns (standardized_robust (row_of E n idx))).
Proof.
  intros HE HS Hi Hall. revert Smat i HS Hi.
  induction Hall as [|g idx sig_genes idxs [Hidx Hlt] _ IH]; intros Smat i HS Hi.
  - exists Smat. split_and!; [done..|]. intros k idx Hk. done.
  - simpl in Hi.
    destruct (signature_rows_robust_step_frame genes E p n Smat ps i g idx sig_genes)
      as (S1 & HS1 & Hrow & Hframe & ->); [done|done|lia|done|done|].
    destruct (IH S1 (S i) HS1 ltac:(lia)) as (S' & -> & HS' & Hkeep & Hrows).
    exists S'. split_and!; [done..| |].
    + intros k Hk. rewrite Hkeep by lia. apply Hframe. lia.
    + intros [|k] idx' Hk.
      * injection Hk as <-. rewrite Nat.add_0_r, Hkeep by lia. done.
      * replace (i + S k) with (S i + k) by lia. by apply Hrows.
Qed.

(** The score vector of [get_signature_expression] is, sample by sample,
    the mean over the member genes of their standardized expression: each
    gene's row of [E] (at the first position of the gene in the gene list)
    is centred by its mean and divided by its sample standard deviation. *)
Lemma get_signature_expression_rows_formula genes (E : ndarray num) p n sig_genes idxs :
  well_shaped E p n →
  Forall2 (λ g idx, list_index genes g = Returns idx ∧ idx < p) sig_genes idxs →
  get_signature_expression genes E sig_genes
  = Returns (column_means ((λ idx, standardized (row_of E n idx)) <$> idxs) n).
Proof.
  intros HE Hall. pose proof HE as [Hs _].
  pose proof (Forall2_length _ _ _ Hall) as Hlen.
  unfold get_signature_expression. rewrite (shape2_Returns _ _ _ Hs), bind_Returns.
  destruct (signature_rows_rows genes E p n sig_genes idxs
              (np_zeros2 (length sig_genes) n) (length sig_genes) 0)
    as (S' & -> & HS' & _ & Hrows); [done|apply np_zeros2_well_shaped|lia|done|].
  rewrite bind_Returns.
  rewrite (np_mean_axis0_rows S' _ n ((λ idx, standardized (row_of E n idx)) <$> idxs) HS');
    [done|by rewrite length_fmap|].
  intros k r Hk. rewrite list_lookup_fmap in Hk.
  destruct (idxs !! k) as [idx|] eqn:Hidx; [|done]. injection Hk as <-.
  by apply (Hrows k idx).
Qed.

(** The score vector of [get_signature_expression_robust] is the mean over
    the member genes of their rows centred by the median and divided by
    1.4826 times the median absolute deviation; the rows are those binary
    search finds. *)
Lemma get_signature_expression_robust_rows_formula genes (E : ndarray num) p n
    sig_genes idxs :
  well_shaped E p n →
  Forall2 (λ g idx, bisect_index genes g = Returns idx ∧ idx < p) sig_genes idxs →
  get_signature_expression_robust genes E sig_genes
  = Returns (column_means ((λ idx, standardized_robust (row_of E n idx)) <$> idxs) n).
Proof.
  intros HE Hall. pose proof HE as [Hs _].
  pose proof (Forall2_length _ _ _ Hall) as Hlen.
  unfold get_signature_expression_robust.
  rewrite (shape2_Returns _ _ _ Hs), bind_Returns.
  destruct (signature_rows_robust_rows genes E p n sig_genes idxs
              (np_zeros2 (length sig_genes) n) (length sig_genes) 0)
    as (S' & -> & HS' & _ & Hrows); [done|apply np_zeros2_well_shaped|lia|done|].
  rewrite bind_Returns.
  rewrite (np_mean_axis0_rows S' _ n
             ((λ idx, standardized_robust (row_of E n idx)) <$> idxs) HS');
    [done|by rewrite length_fmap|].
  intros k r Hk. rewrite list_lookup_fmap in Hk.
  destruct (idxs !! k) as [idx|] eqn:Hidx; [|done]. injection Hk as <-.
  by apply (Hrows k idx).
Qed.
End SignatureFormula.

Example get_signature_expression_rows_formula_example :
  get_signature_expression ["a"; "b"] (NDArray [2; 3] [1; 2; 3; 4; 6; 11]%float) ["b"; "a"]
  = Returns (column_means [standardized [4; 6; 11]%float; standardized [1; 2; 3]%float] 3).
Proof.
  rewrite (get_signature_expression_rows_formula ["a"; "b"]
             (NDArray [2; 3] [1; 2; 3; 4; 6; 11]%float) 2 3 ["b"; "a"] [1; 0]).
  - vm_compute. reflexivity.
  - split; reflexivity.
  - constructor; [split; [reflexivity|lia]|].
    constructor; [split; [reflexivity|lia]|]. constructor.
Defined.

Example get_signature_expression_robust_rows_formula_example :
  get_signature_expression_robust ["a"; "b"] (NDArray [2; 3] [1; 2; 3; 4; 6; 11]%float)
    ["b"; "a"]
  = Returns (column_means [standardized_robust [4; 6; 11]%float;
                           standardized_robust [1; 2; 3]%float] 3).
Proof.
  rewrite (get_signature_expression_robust_rows_formula ["a"; "b"]
             (NDArray [2; 3] [1; 2; 3; 4; 6; 11]%float) 2 3 ["b"; "a"] [1; 0]).
  - vm_compute. reflexivity.
  - split; reflexivity.
  - constructor; [split; [reflexivity|lia]|].
    constructor; [split; [reflexivity|lia]|]. constructor.
Defined.

(** ** Binary search on a sorted gene list *)

Lemma ascii_compare_refl (a : ascii) : Ascii.compare a a = Eq.
Proof. apply N.compare_refl. Qed.

Lemma ascii_compare_lt_trans (a b c : ascii) :
  Ascii.compare a b = Lt → Ascii.compare b c = Lt → Ascii.compare a c = Lt.
Proof. unfold Ascii.compare. rewrite !N.compare_lt_iff. lia. Qed.

Lemma string_compare_refl (s : string) : String.compare s s = Eq.
Proof. induction s as [|a s IH]; simpl; [done|]. by rewrite ascii_compare_refl. Qed.

Lemma string_compare_lt_trans (s1 s2 s3 : string) :
  String.compare s1 s2 = Lt → String.compare s2 s3 = Lt → String.compare s1 s3 = Lt.
Proof.
  revert s2 s3. induction s1 as [|a s1 IH]; intros [|b s2] [|c s3]; simpl; try done.
  destruct (Ascii.compare a b) eqn:Hab; [|intros _|done].
  - apply Ascii.compare_eq_iff in Hab as ->.
    destruct (Ascii.compare b c); [apply IH|done|done].
  - destruct (Ascii.compare b c) eqn:Hbc; [|intros _|done].
    + apply Ascii.compare_eq_iff in Hbc as <-. by rewrite Hab.
    + by rewrite (ascii_compare_lt_trans a b c).
Qed.

Lemma string_ltb_irrefl (s : string) : String.ltb s s = false.
Proof. unfold String.ltb. by rewrite string_compare_refl. Qed.

Lemma string_leb_cases (s1 s2 : string) :
  String.leb s1 s2 = true → String.ltb s1 s2 = true ∨ s1 = s2.
Proof.
  unfold String.leb, String.ltb. destruct (String.compare s1 s2) eqn:E; [|by left|done].
  right. by apply String.compare_eq_iff.
Qed.

Lemma string_ltb_trans (s1 s2 s3 : string) :
  String.ltb s1 s2 = true → String.ltb s2 s3 = true → String.ltb s1 s3 = true.
Proof.
  unfold String.ltb.
  destruct (String.compare s1 s2) eqn:E1; try done.
  destruct (String.compare s2 s3) eqn:E2; try done.
  by rewrite (string_compare_lt_trans _ _ _ E1 E2).
Qed.

Lemma string_leb_ltb_trans (s1 s2 s3 : string) :
  String.leb s1 s2 = true → String.ltb s2 s3 = true → String.ltb s1 s3 = true.
Proof.
  intros [Hlt| ->]%string_leb_cases; [|done]. by apply string_ltb_trans.
Qed.

(** The loop of [bisect_left] keeps everything before [lo] smaller than [x]
    and nothing from [hi] on smaller than [x]. *)
Lemma bisect_left_loop_sorted fuel a x lo hi :
  StronglySorted str_le a →
  lo ≤ hi → hi ≤ length a → hi - lo ≤ fuel →
  (∀ k y, k < lo → a !! k = Some y → String.ltb y x = true) →
  (∀ k y, hi ≤ k → a !! k = Some y → String.ltb y x = false) →
  (∀ k y, k < bisect_left_loop fuel a x lo hi → a !! k = Some y → String.ltb y x = true)
  ∧ (∀ k y, bisect_left_loop fuel a x lo hi ≤ k → a !! k = Some y →
       String.ltb y x = false).
Proof.
  intros Hs. revert lo hi.
  induction fuel as [|fuel IH]; intros lo hi Hle Hhi Hf Hlow Hup; cbn [bisect_left_loop].
  - split; [done|]. intros k y Hk. apply Hup. lia.
  - destruct (decide (lo < hi)) as [Hlt|Hge]; [|split; [done|]; intros k y Hk; apply Hup; lia].
    pose proof (Nat.div_mod (lo + hi) 2 ltac:(done)) as Hdiv.
    pose proof (Nat.mod_upper_bound (lo + hi) 2 ltac:(done)) as Hmod.
    set (mid := (lo + hi) / 2) in *.
    destruct (lookup_lt_is_Some_2 a mid ltac:(lia)) as [ym Hym]. rewrite Hym.
    destruct (String.ltb ym x) eqn:Hcmp.
    + apply IH; [lia|lia|lia| |done].
      intros k y Hk Hy. destruct (decide (k = mid)) as [->|Hne].
      * rewrite Hym in Hy. by injection Hy as <-.
      * apply (string_leb_ltb_trans y ym x); [|done].
        apply (StronglySorted_lookup str_le a k mid y ym Hs Hy Hym). lia.
    + apply IH; [lia|lia|lia|done|].
      intros k y Hk Hy. destruct (decide (k = mid)) as [->|Hne].
      * rewrite Hym in Hy. by injection Hy as <-.
      * destruct (String.ltb y x) eqn:Hyx; [|done].
        assert (str_le ym y) as Hmy
          by (apply (StronglySorted_lookup str_le a mid k ym y Hs Hym Hy); lia).
        by rewrite (string_leb_ltb_trans ym y x Hmy Hyx) in Hcmp.
Qed.

Lemma list_index_first genes g i :
  genes !! i = Some g → (∀ k, k < i → genes !! k ≠ Some g) →
  list_index genes g = Returns i.
Proof.
  revert i. induction genes as [|x genes IH]; intros i Hi Hfirst; [done|].
  cbn [list_index]. destruct i as [|i].
  - injection Hi as ->. by rewrite decide_True.
  - rewrite decide_False; [|intros ->; by apply (Hfirst 0); [lia|]].
    rewrite (IH i); [done|done|]. intros k Hk. apply (Hfirst (S k)). lia.
Qed.

(** On a gene list in ascending order (duplicates allowed) the binary
    search of [bisect_index] returns what [genes.index] returns: the first
    position of a gene that is in the list, and ValueError for a gene that
    is not. *)
Theorem bisect_index_sorted genes g :
  StronglySorted str_le genes →
  bisect_index genes g = list_index genes g.
Proof.
  intros Hs.
  destruct (bisect_left_loop_sorted (length genes) genes g 0 (length genes) Hs)
    as [Hlow Hup]; [lia|lia|lia|intros k y Hk; lia| |].
  { intros k y Hk Hy. apply lookup_lt_Some in Hy. lia. }
  fold (bisect_left genes g) in Hlow, Hup.
  assert (∀ k, k < bisect_left genes g → genes !! k ≠ Some g) as Hbefore.
  { intros k Hk Hg. specialize (Hlow k g Hk Hg). by rewrite string_ltb_irrefl in Hlow. }
  unfold bisect_index.
  destruct (genes !! bisect_left genes g) as [y|] eqn:Hy.
  - case_decide as Hyg.
    + subst y. symmetry. by apply list_index_first.
    + symmetry. apply list_index_missing. intros Hin.
      apply list_elem_of_lookup in Hin as [k Hk].
      destruct (decide (k < bisect_left genes g)) as [Hlt|Hge]; [by apply (Hbefore k)|].
      destruct (decide (k = bisect_left genes g)) as [->|Hne]; [congruence|].
      assert (str_le y g) as Hle
        by (apply (StronglySorted_lookup str_le genes _ k y g Hs Hy Hk); lia).
      apply string_leb_cases in Hle as [Hlt| ->]; [|done].
      by rewrite (Hup _ y ltac:(done) Hy) in Hlt.
  - symmetry. apply list_index_missing. intros Hin.
    apply list_elem_of_lookup in Hin as [k Hk].
    apply (Hbefore k); [|done]. apply lookup_ge_None in Hy. apply lookup_lt_Some in Hk. lia.
Qed.

Lemma bisect_index_sorted_witness :
  bisect_index ["a"; "b"; "b"; "d"] "b" = list_index ["a"; "b"; "b"; "d"] "b".
Proof.
  apply bisect_index_sorted.
  repeat (constructor; [|repeat (constructor; [reflexivity|]); constructor]). constructor.
Defined.

(** On a list that is not sorted the binary search can miss a gene that is
    there. *)
Example bisect_index_unsorted :
  list_index ["b"; "a"] "b" = Returns 0 ∧ bisect_index ["b"; "a"] "b" = Raises ValueError.
Proof. split; reflexivity. Qed.

Example variance_filter_float_example :
  variance_filter argsort ["a"; "b"; "c"]
    (NDArray [3; 2] [1; 2; 0; 8; 5; 5]%float) 2
  = Returns (["a"; "b"], NDArray [2; 2] [1; 2; 0; 8]%float).
Proof. vm_compute. reflexivity. Qed.

(** ** [variance_filter] *)

Lemma mask_set_length sel idxs : length (mask_set sel idxs) = length sel.
Proof.
  unfold mask_set. revert sel. induction idxs as [|j idxs IH]; intros sel; simpl; [done|].
  by rewrite IH, length_insert.
Qed.

Lemma mask_set_lookup sel idxs i :
  mask_set sel idxs !! i = Some true
  ↔ sel !! i = Some true ∨ (i ∈ idxs ∧ i < length sel).
Proof.
  unfold mask_set. revert sel. induction idxs as [|j idxs IH]; intros sel; simpl.
  - split; [by left|]. intros [?|[Hin _]]; [done|by apply elem_of_nil in Hin].
  - rewrite IH, length_insert, elem_of_cons. split.
    + intros [Hl|[Hin Hlt]]; [|by right; split; [right|]].
      destruct (decide (j = i)) as [->|Hne].
      * right. split; [by left|]. apply lookup_lt_Some in Hl.
        by rewrite length_insert in Hl.
      * left. by rewrite list_lookup_insert_ne in Hl.
    + intros [Hl|[[->|Hin] Hlt]].
      * left. destruct (decide (j = i)) as [->|Hne].
        -- rewrite list_lookup_insert_eq; [done|by eapply lookup_lt_Some].
        -- by rewrite list_lookup_insert_ne.
      * left. by rewrite list_lookup_insert_eq.
      * by right.
Qed.

Lemma filter_ext_in {A} (P Q : A → Prop) `{∀ x, Decision (P x)} `{∀ x, Decision (Q x)}
    (l : list A) :
  (∀ x, x ∈ l → (P x ↔ Q x)) → filter P l = filter Q l.
Proof.
  induction l as [|x l IH]; intros Hext; [done|].
  rewrite !filter_cons, IH by (intros y Hy; apply Hext; by right).
  destruct (Hext x ltac:(by left)) as [H1 H2].
  destruct (decide (P x)), (decide (Q x)); try done; by exfalso; auto.
Qed.

(** The positions selected from a mask that starts all [False]. *)
Lemma np_nonzero_mask_set p idxs :
  np_nonzero (mask_set (replicate p false) idxs)
  = filter (λ i, i ∈ idxs) (seq 0 p).
Proof.
  unfold np_nonzero. rewrite mask_set_length, length_replicate.
  apply filter_ext_in. intros i Hi. apply elem_of_seq in Hi.
  rewrite mask_set_lookup, length_replicate. split.
  - intros [Hl|[Hin _]]; [|done]. by apply lookup_replicate in Hl as [? _].
  - intros Hin. right. split; [done|lia].
Qed.

Lemma getitems_sublist_seq {A} (pre l : list A) sel :
  sel `sublist_of` seq (length pre) (length l) →
  ∃ gs, getitems (pre ++ l) sel = Returns gs
        ∧ gs `sublist_of` l
        ∧ Forall2 (λ i g, (pre ++ l) !! i = Some g) sel gs.
Proof.
  revert pre sel. induction l as [|x l IH]; intros pre sel Hsub.
  - apply sublist_nil_r in Hsub as ->. exists []. split_and!; [done|done|constructor].
  - cbn [length seq] in Hsub.
    assert ((pre ++ [x]) ++ l = pre ++ x :: l) as Happ by (by rewrite <-app_assoc).
    assert (length (pre ++ [x]) = S (length pre)) as Hlen
      by (rewrite length_app; simpl; lia).
    apply sublist_cons_r in Hsub as [Hsub|(sel' & -> & Hsub)].
    + rewrite <-Hlen in Hsub. destruct (IH (pre ++ [x]) sel Hsub) as (gs & Hg & Hs & Hl).
      rewrite Happ in Hg, Hl. exists gs. split_and!; [done| |done]. by apply sublist_cons.
    + rewrite <-Hlen in Hsub. destruct (IH (pre ++ [x]) sel' Hsub) as (gs & Hg & Hs & Hl).
      rewrite Happ in Hg, Hl. exists (x :: gs).
      assert ((pre ++ x :: l) !! length pre = Some x) as Hx
        by (by rewrite lookup_app_r, Nat.sub_diag by lia).
      split_and!.
      * cbn [getitems]. rewrite (getitem_Returns _ _ _ Hx), bind_Returns, Hg. done.
      * by apply sublist_skip.
      * by constructor.
Qed.

Lemma concat_rows_length {A} (rows : list (list A)) m :
  Forall (λ r, length r = m) rows → length (concat rows) = length rows * m.
Proof.
  induction 1 as [|r rows Hr _ IH]; [done|]. simpl. rewrite length_app, IH, Hr. lia.
Qed.

Lemma concat_rows_lookup {A} (rows : list (list A)) m k r :
  Forall (λ r, length r = m) rows → rows !! k = Some r →
  take m (drop (k * m) (concat rows)) = r.
Proof.
  intros Hall. revert k. induction Hall as [|r0 rows Hr0 _ IH]; intros k Hk; [done|].
  destruct k as [|k]; cbn [concat]; simpl in Hk.
  - injection Hk as ->. rewrite Nat.mul_0_l, drop_0. by rewrite take_app_length'.
  - replace (S k * m) with (m + k * m) by lia.
    rewrite drop_app_add' by done. by apply IH.
Qed.

Lemma concat_all_rows {A} (d : list A) m p start :
  concat ((λ i, take m (drop (i * m) d)) <$> seq start p)
  = take (p * m) (drop (start * m) d).
Proof.
  revert start. induction p as [|p IH]; intros start; simpl; [done|].
  rewrite IH. replace (S start * m) with (start * m + m) by lia.
  rewrite <-drop_drop, <-take_take_drop. done.
Qed.

Section VarianceFilter.
Context {num : Type} `{!Float64Ops num}.
Context (np_argsort : list num → list nat) (Hsort : argsort_correct np_argsort).

(** The positions [variance_filter] keeps. *)
Lemma variance_filter_Returns genes (E : ndarray num) p m top :
  well_shaped E p m → length genes = p →
  let L := take top (reverse (np_argsort (row_variances E p m))) in
  let sel := filter (λ i, i ∈ L) (seq 0 p) in
  ∃ gs, variance_filter np_argsort genes E top = Returns (gs, take_rows E m sel)
        ∧ gs `sublist_of` genes
        ∧ Forall2 (λ i g, genes !! i = Some g) sel gs
        ∧ sel `sublist_of` seq 0 p
        ∧ sel ≡ₚ L.
Proof.
  intros [Hs Hd] Hlen L sel.
  assert (sel `sublist_of` seq 0 p) as Hsub by apply sublist_filter.
  destruct (getitems_sublist_seq [] genes sel) as (gs & Hg & Hgs & Hl);
    [by rewrite Hlen|].
  rewrite app_nil_l in Hg, Hl.
  exists gs. split_and!; [|done..|].
  - unfold variance_filter. rewrite (shape2_Returns _ _ _ Hs), bind_Returns.
    cbv zeta. rewrite np_nonzero_mask_set. fold L. fold sel. by rewrite Hg.
  - destruct (Hsort (row_variances E p m)) as [Hperm _].
    assert (length (row_variances E p m) = p) as Hv
      by (unfold row_variances; by rewrite length_fmap, length_seq).
    rewrite Hv in Hperm.
    apply NoDup_Permutation.
    + apply NoDup_filter, NoDup_seq.
    + eapply sublist_NoDup; [|apply sublist_take].
      rewrite reverse_Permutation, Hperm. apply NoDup_seq.
    + intros i. unfold sel. rewrite list_elem_of_filter. split; [by intros [? _]|].
      intros Hi. split; [done|].
      assert (i ∈ reverse (np_argsort (row_variances E p m))) as Hin
        by (eapply elem_of_sublist; [done|apply sublist_take]).
      by rewrite reverse_Permutation, Hperm in Hin.
Qed.
End VarianceFilter.

Lemma argsort_is_correct {num : Type} `{!Float64Ops num} `{!OrderLaws num} :
  argsort_correct (argsort (num:=num)).
Proof.
  intros l. split; [apply argsort_perm|].
  intros k1 k2 i j x y Hk Hi Hj Hx Hy.
  by destruct (argsort_ascending l k1 k2 i j x y Hi Hj Hx Hy Hk).
Qed.

Section VarianceFilterProperties.
Context {num : Type} `{!Float64Ops num}.
Context (np_argsort : list num → list nat).

Lemma row_variances_length (E : ndarray num) p m : length (row_variances E p m) = p.
Proof. unfold row_variances. by rewrite length_fmap, length_seq. Qed.

(** [variance_filter] keeps [min(top, p)] of the [p] genes, in the order
    they had, and returns with them their rows of [E], unchanged. *)
Theorem variance_filter_selection genes (E : ndarray num) p m top :
  argsort_correct np_argsort →
  well_shaped E p m → length genes = p →
  ∃ sel gs E',
    variance_filter np_argsort genes E top = Returns (gs, E')
    ∧ sel `sublist_of` seq 0 p
    ∧ length sel = min top p
    ∧ gs `sublist_of` genes
    ∧ Forall2 (λ i g, genes !! i = Some g) sel gs
    ∧ well_shaped E' (length sel) m
    ∧ ∀ k i, sel !! k = Some i → row_get E' k = row_get E i.
Proof.
  intros Hsort HE Hlen.
  destruct (variance_filter_Returns np_argsort Hsort genes E p m top HE Hlen)
    as (gs & Hvf & Hgs & Hl & Hsub & Hperm).
  set (L := take top (reverse (np_argsort (row_variances E p m)))) in *.
  set (sel := filter (λ i, i ∈ L) (seq 0 p)) in *.
  assert (Forall (λ i, i < p) sel) as Hlt.
  { apply Forall_forall. intros i Hi.
    apply (elem_of_sublist _ _ _ Hi) in Hsub. apply elem_of_seq in Hsub. lia. }
  assert (Forall (λ r : list num, length r = m)
            ((λ i, take m (drop (i * m) (data E))) <$> sel)) as Hrows.
  { apply Forall_fmap. eapply Forall_impl; [exact Hlt|]. intros i Hi. simpl.
    destruct HE as [_ Hd]. rewrite length_take, length_drop, Hd.
    simpl in Hi. assert (i * m + m ≤ p * m) by nia. lia. }
  assert (well_shaped (take_rows E m sel) (length sel) m) as HE'.
  { split; [done|]. simpl. by rewrite (concat_rows_length _ m Hrows), length_fmap. }
  exists sel, gs, (take_rows E m sel).
  split_and!; [exact Hvf|exact Hsub| |exact Hgs|exact Hl|exact HE'|].
  - rewrite Hperm. unfold L. rewrite length_take, length_reverse.
    destruct (Hsort (row_variances E p m)) as [Hp _].
    by rewrite Hp, length_seq, row_variances_length.
  - intros k i Hk.
    assert (k < length sel) as Hklt by (by eapply lookup_lt_Some).
    assert (i < p) as Hi by (rewrite Forall_lookup in Hlt; by eapply Hlt).
    destruct (row_get_Returns _ _ _ k HE' Hklt) as (r & -> & _ & ->).
    destruct (row_get_Returns _ _ _ i HE Hi) as (r' & -> & _ & ->).
    f_equal. simpl. apply (concat_rows_lookup _ m k _ Hrows).
    by rewrite list_lookup_fmap, Hk.
Qed.

(** No gene that [variance_filter] drops has a larger variance than a gene
    it keeps. *)
Theorem variance_filter_threshold genes (E : ndarray num) p m top :
  argsort_correct np_argsort →
  well_shaped E p m → length genes = p →
  ∃ sel gs E',
    variance_filter np_argsort genes E top = Returns (gs, E')
    ∧ Forall2 (λ i g, genes !! i = Some g) sel gs
    ∧ ∀ i j v_i v_j,
        i ∈ sel → j ∉ sel →
        row_variances E p m !! i = Some v_i →
        row_variances E p m !! j = Some v_j →
        f_le v_j v_i.
Proof.
  intros Hsort HE Hlen.
  destruct (variance_filter_Returns np_argsort Hsort genes E p m top HE Hlen)
    as (gs & Hvf & Hgs & Hl & Hsub & Hperm).
  set (a := np_argsort (row_variances E p m)) in *.
  set (sel := filter (λ i, i ∈ take top (reverse a)) (seq 0 p)) in *.
  exists sel, gs, (take_rows E m sel). split_and!; [exact Hvf|exact Hl|].
  intros i j v_i v_j Hi Hj Hvi Hvj.
  destruct (Hsort (row_variances E p m)) as [Hp Hasc]. fold a in Hp, Hasc.
  rewrite row_variances_length in Hp.
  assert (length a = p) as Hla by (by rewrite Hp, length_seq).
  rewrite Hperm in Hi. apply elem_of_take in Hi as (ki & Hki & Hkt).
  assert (j < p) as Hjp by (apply lookup_lt_Some in Hvj; by rewrite row_variances_length in Hvj).
  assert (j ∈ reverse a) as Hja
    by (rewrite reverse_Permutation, Hp; apply elem_of_seq; lia).
  apply list_elem_of_lookup in Hja as [kj Hkj].
  assert (top ≤ kj) as Hkjt.
  { destruct (decide (top ≤ kj)) as [|Hn]; [done|]. exfalso. apply Hj.
    rewrite Hperm. apply elem_of_take. exists kj. split; [done|lia]. }
  apply reverse_lookup_Some in Hki as [Hki Hki'], Hkj as [Hkj Hkj'].
  apply (Hasc (length a - S kj) (length a - S ki) j i v_j v_i); [lia|done..].
Qed.

(** With [top] at least the number of genes nothing is filtered: the gene
    list and the matrix are returned as they are. *)
Theorem variance_filter_all genes (E : ndarray num) p m top :
  argsort_correct np_argsort →
  well_shaped E p m → length genes = p → p ≤ top →
  variance_filter np_argsort genes E top = Returns (genes, E).
Proof.
  intros Hsort HE Hlen Htop.
  destruct (variance_filter_Returns np_argsort Hsort genes E p m top HE Hlen)
    as (gs & Hvf & Hgs & Hl & Hsub & Hperm).
  rewrite Hvf.
  destruct (Hsort (row_variances E p m)) as [Hp _].
  rewrite row_variances_length in Hp.
  set (a := np_argsort (row_variances E p m)) in *.
  assert (filter (λ i, i ∈ take top (reverse a)) (seq 0 p) = seq 0 p) as Hsel.
  { rewrite take_ge by (rewrite length_reverse, Hp, length_seq; lia).
    rewrite <-(filter_ext_in (λ _, True) _ (seq 0 p)).
    - clear. induction (seq 0 p) as [|x l IH]; [done|]. by rewrite filter_cons_True, IH.
    - intros i Hi. by rewrite reverse_Permutation, Hp. }
  rewrite Hsel in Hl |- *. f_equal. f_equal.
  - apply list_eq. intros k. pose proof (Forall2_length _ _ _ Hl) as Hgl.
    rewrite length_seq in Hgl.
    destruct (gs !! k) as [g|] eqn:Hg.
    + assert (k < p) as Hk by (rewrite Hgl; by eapply lookup_lt_Some).
      symmetry. apply (Forall2_lookup_lr _ _ _ k k g Hl); [by apply lookup_seq_lt|done].
    + symmetry. apply lookup_ge_None. apply lookup_ge_None in Hg. lia.
  - destruct HE as [Hs Hd]. destruct E as [sh d]. simpl in *. subst sh.
    unfold take_rows. simpl. rewrite length_seq, concat_all_rows. simpl.
    by rewrite drop_0, take_ge by lia.
Qed.
End VarianceFilterProperties.

Lemma variance_filter_selection_witness :
  ∃ (sel : list nat) gs (E' : ndarray R),
    variance_filter argsort ["a"; "b"; "c"] (NDArray [3; 2] [1; 2; 0; 8; 5; 5]%R) 2
    = Returns (gs, E')
    ∧ length sel = 2 ∧ gs `sublist_of` ["a"; "b"; "c"].
Proof.
  destruct (variance_filter_selection (num:=R) argsort ["a"; "b"; "c"]
              (NDArray [3; 2] [1; 2; 0; 8; 5; 5]%R) 3 2 2)
    as (sel & gs & E' & Hvf & _ & Hlen & Hgs & _).
  - apply argsort_is_correct.
  - split; reflexivity.
  - reflexivity.
  - exists sel, gs, E'. split_and!; [exact Hvf|exact Hlen|exact Hgs].
Defined.

Lemma variance_filter_threshold_witness :
  ∃ sel gs (E' : ndarray R),
    variance_filter argsort ["a"; "b"; "c"] (NDArray [3; 2] [1; 2; 0; 8; 5; 5]%R) 2
    = Returns (gs, E')
    ∧ Forall2 (λ i g, ["a"; "b"; "c"] !! i = Some g) sel gs.
Proof.
  destruct (variance_filter_threshold (num:=R) argsort ["a"; "b"; "c"]
              (NDArray [3; 2] [1; 2; 0; 8; 5; 5]%R) 3 2 2)
    as (sel & gs & E' & Hvf & Hl & _).
  - apply argsort_is_correct.
  - split; reflexivity.
  - reflexivity.
  - exists sel, gs, E'. split; [exact Hvf|exact Hl].
Defined.

Lemma variance_filter_all_witness :
  variance_filter argsort ["a"; "b"; "c"] (NDArray [3; 2] [1; 2; 0; 8; 5; 5]%R) 5
  = Returns (["a"; "b"; "c"], NDArray [3; 2] [1; 2; 0; 8; 5; 5]%R).
Proof.
  apply (variance_filter_all (num:=R) argsort ["a"; "b"; "c"]
           (NDArray [3; 2] [1; 2; 0; 8; 5; 5]%R) 3 2 5).
  - apply argsort_is_correct.
  - split; reflexivity.
  - reflexivity.
  - lia.
Defined.

(** ** [GOPCAConfig]: construction, unknown attributes and [repr] *)

Lemma GOPCAConfig_init_Raises {V : Type} (kwargs : gmap string V) k :
  k ∈ valid_attrs → kwargs !! k = None →
  (GOPCAConfig_init kwargs).2 = Raises AssertionError.
Proof.
  intros Hk Hnone. unfold GOPCAConfig_init. cbn [snd].
  rewrite (assert_supplied_missing _ _ k); [reflexivity| |].
  - by apply elem_of_elements.
  - by apply not_elem_of_dom.
Qed.

Lemma GOPCAConfig_init_Returns {V : Type} (kwargs : gmap string V) :
  (∀ k, k ∈ valid_attrs → is_Some (kwargs !! k)) →
  ∃ d, (GOPCAConfig_init kwargs).2 = Returns (Config d)
       ∧ ∀ k, d !! k = if decide (k ∈ valid_attrs) then kwargs !! k else None.
Proof.
  intros Hall. unfold GOPCAConfig_init. cbn [snd].
  rewrite assert_supplied_all; last first.
  { apply Forall_forall. intros k Hk. apply elem_of_dom, Hall.
    by apply elem_of_elements. }
  destruct (dict_of_keys_Returns kwargs (elements valid_attrs)) as (d & Hd & Hlook).
  { apply Forall_forall. intros k Hk. apply Hall. by apply elem_of_elements. }
  rewrite bind_Returns, Hd, bind_Returns. exists d.
  rewrite (right_id_L ∅ (∪)). split; [reflexivity|].
  intros k. rewrite Hlook.
  destruct (decide (k ∈ elements valid_attrs)) as [Hk|Hk];
    destruct (decide (k ∈ valid_attrs)) as [Hk'|Hk']; try reflexivity.
  - exfalso. apply Hk'. by apply elem_of_elements.
  - exfalso. apply Hk. by apply elem_of_elements.
Qed.

Lemma valid_attrs_all_or_missing {V : Type} (kwargs : gmap string V) :
  (∀ k, k ∈ valid_attrs → is_Some (kwargs !! k))
  ∨ (∃ k, k ∈ valid_attrs ∧ kwargs !! k = None).
Proof.
  destruct (decide (Forall (λ k, is_Some (kwargs !! k)) (elements valid_attrs)))
    as [Hall|Hnot].
  - left. intros k Hk. rewrite Forall_forall in Hall. apply Hall.
    by apply elem_of_elements.
  - right. apply not_Forall_Exists in Hnot; [|apply _].
    apply Exists_exists in Hnot as (k & Hk & Hnone).
    exists k. split; [by apply elem_of_elements|].
    by apply eq_None_not_Some.
Qed.

(** Unknown attributes have no influence on what is built: two sets of
    keyword arguments that agree on the recognized attributes give the same
    configuration, or fail both. *)
Theorem GOPCAConfig_init_unknown_irrelevant {V : Type} (kwargs1 kwargs2 : gmap string V) :
  (∀ k, k ∈ valid_attrs → kwargs1 !! k = kwargs2 !! k) →
  (GOPCAConfig_init kwargs1).2 = (GOPCAConfig_init kwargs2).2.
Proof.
  intros Hagree.
  destruct (valid_attrs_all_or_missing kwargs1) as [Hall|(k & Hk & Hnone)].
  - destruct (GOPCAConfig_init_Returns kwargs1 Hall) as (d1 & -> & H1).
    destruct (GOPCAConfig_init_Returns kwargs2) as (d2 & -> & H2).
    { intros k Hk. rewrite <-Hagree by exact Hk. by apply Hall. }
    f_equal. f_equal. apply map_eq. intros k. rewrite H1, H2.
    destruct (decide (k ∈ valid_attrs)) as [Hk|Hk]; [by apply Hagree|reflexivity].
  - rewrite (GOPCAConfig_init_Raises kwargs1 k Hk Hnone).
    rewrite (GOPCAConfig_init_Raises kwargs2 k Hk); [reflexivity|].
    by rewrite <-Hagree.
Qed.

(** Building a configuration again from the attributes of one that was
    built prints no warning and gives the same configuration. *)
Theorem GOPCAConfig_init_round_trip {V : Type} (kwargs : gmap string V) c :
  (GOPCAConfig_init kwargs).2 = Returns c →
  GOPCAConfig_init (config_dict c) = ([], Returns c).
Proof.
  intros Hc.
  destruct (valid_attrs_all_or_missing kwargs) as [Hall|(k & Hk & Hnone)];
    [|by rewrite (GOPCAConfig_init_Raises kwargs k Hk Hnone) in Hc].
  destruct (GOPCAConfig_init_Returns kwargs Hall) as (d & Hd & Hlook).
  rewrite Hd in Hc. injection Hc as <-. cbn [config_dict].
  assert (∀ k, k ∈ valid_attrs → is_Some (d !! k)) as Hall'.
  { intros k Hk. rewrite Hlook, decide_True by exact Hk. by apply Hall. }
  assert (dom d ∖ valid_attrs = ∅) as Hdom.
  { apply set_eq. intros k. rewrite elem_of_difference, elem_of_dom, Hlook.
    split; [|intros Hk; destruct (not_elem_of_empty (C:=gset string) k Hk)].
    intros [Hsome Hk]. rewrite decide_False in Hsome by exact Hk.
    destruct Hsome as [v Hv]. discriminate Hv. }
  destruct (GOPCAConfig_init_Returns d Hall') as (d' & Hd' & Hlook').
  rewrite (surjective_pairing (GOPCAConfig_init d)). f_equal.
  - unfold GOPCAConfig_init. cbn [fst]. rewrite Hdom, elements_empty. reflexivity.
  - rewrite Hd'. f_equal. f_equal. apply map_eq. intros k. rewrite Hlook', Hlook.
    by destruct (decide (k ∈ valid_attrs)).
Qed.

Lemma not_valid_attr_zz : "zz" ∉ valid_attrs.
Proof.
  assert (bool_decide ("zz" ∈ valid_attrs) = false) as Hf by (vm_compute; reflexivity).
  exact (bool_decide_eq_false_1 _ Hf).
Qed.

Lemma GOPCAConfig_init_unknown_irrelevant_witness :
  (GOPCAConfig_init (gset_to_gmap 1%nat valid_attrs)).2
  = (GOPCAConfig_init (<["zz" := 7%nat]> (gset_to_gmap 1%nat valid_attrs))).2.
Proof.
  apply GOPCAConfig_init_unknown_irrelevant.
  intros k Hk. rewrite lookup_insert_ne; [reflexivity|].
  intros <-. exact (not_valid_attr_zz Hk).
Defined.

Lemma GOPCAConfig_init_round_trip_witness :
  ∃ c, (GOPCAConfig_init (<["zz" := 7%nat]> (gset_to_gmap 1%nat valid_attrs))).2 = Returns c
       ∧ GOPCAConfig_init (config_dict c) = ([], Returns c).
Proof.
  destruct (GOPCAConfig_init_Returns (<["zz" := 7%nat]> (gset_to_gmap 1%nat valid_attrs)))
    as (d & Hd & _).
  - intros k Hk. exists 1%nat. rewrite lookup_insert_ne.
    + rewrite lookup_gset_to_gmap, option_guard_True by exact Hk. reflexivity.
    + intros <-. exact (not_valid_attr_zz Hk).
  - exists (Config d). split; [exact Hd|].
    exact (GOPCAConfig_init_round_trip _ _ Hd).
Defined.

Section ConfigRepr.
Context {V : Type} (str_of : V → string).

Lemma attr_items_None (self : GOPCAConfig V) ks :
  attr_items str_of self ks = None ↔ ∃ k, k ∈ ks ∧ config_dict self !! k = None.
Proof.
  induction ks as [|k ks IH]; cbn [attr_items].
  - split; [discriminate|]. intros (k & Hk & _). by apply elem_of_nil in Hk.
  - destruct (config_dict self !! k) as [v|] eqn:Hv; cbn.
    + destruct (attr_items str_of self ks) as [its|]; cbn.
      * split; [discriminate|]. intros (k' & Hk' & Hnone).
        apply elem_of_cons in Hk' as [->|Hk']; [congruence|].
        assert (Some its = None) as Habs; [|discriminate Habs].
        apply IH. by exists k'.
      * split; [intros _|reflexivity].
        destruct (proj1 IH eq_refl) as (k' & Hk' & Hnone).
        exists k'. split; [by right|exact Hnone].
    + split; [intros _|reflexivity]. exists k. split; [by left|exact Hv].
Qed.

(** [repr] of a configuration fails (AttributeError) exactly when one of
    the recognized attributes is not set on it; on every configuration the
    constructor has returned, [repr], [str] and [hash] succeed. *)
Theorem GOPCAConfig_repr_defined (py_hash : string → Z) :
  (∀ self : GOPCAConfig V,
     GOPCAConfig_repr str_of self = None
     ↔ ∃ k, k ∈ valid_attrs ∧ config_dict self !! k = None)
  ∧ (∀ (kwargs : gmap string V) c,
       (GOPCAConfig_init kwargs).2 = Returns c →
       is_Some (GOPCAConfig_repr str_of c)
       ∧ is_Some (GOPCAConfig_str str_of c)
       ∧ is_Some (GOPCAConfig_hash py_hash str_of c)).
Proof.
  assert (∀ self : GOPCAConfig V,
            attr_items str_of self (sorted (elements valid_attrs)) = None
            ↔ ∃ k, k ∈ valid_attrs ∧ config_dict self !! k = None) as Hitems.
  { intros self. rewrite attr_items_None. split; intros (k & Hk & Hnone); exists k.
    - split; [|exact Hnone]. rewrite sorted_Permutation in Hk. by apply elem_of_elements.
    - split; [|exact Hnone]. rewrite sorted_Permutation. by apply elem_of_elements. }
  split.
  - intros self. rewrite <-Hitems. unfold GOPCAConfig_repr.
    destruct (attr_items str_of self (sorted (elements valid_attrs))); cbn;
      split; (discriminate || reflexivity).
  - intros kwargs c Hc.
    destruct (valid_attrs_all_or_missing kwargs) as [Hall|(k & Hk & Hnone)];
      [|by rewrite (GOPCAConfig_init_Raises kwargs k Hk Hnone) in Hc].
    destruct (GOPCAConfig_init_Returns kwargs Hall) as (d & Hd & Hlook).
    rewrite Hd in Hc. injection Hc as <-.
    destruct (attr_items str_of (Config d) (sorted (elements valid_attrs)))
      as [its|] eqn:Hits.
    + unfold GOPCAConfig_hash, GOPCAConfig_repr, GOPCAConfig_str. rewrite Hits. cbn.
      split_and!; eexists; reflexivity.
    + exfalso. apply Hitems in Hits as (k & Hk & Hnone). cbn [config_dict] in Hnone.
      rewrite Hlook, decide_True in Hnone by exact Hk.
      destruct (Hall k Hk) as [v Hv]. congruence.
Qed.
End ConfigRepr.

(** ** [GOPCASignature]: equality, hash, properties and display *)

Section SignatureEquivalence.
Context {V enrichment : Type} (enrichment_repr : enrichment → string).
Context (py_hash : string → Z).

Lemma GOPCASignature_eq_true (s1 s2 : GOPCASignature enrichment) :
  GOPCASignature_eq (V:=V) enrichment_repr s1 (PySignature s2) = true
  ↔ GOPCASignature_repr enrichment_repr s1 = GOPCASignature_repr enrichment_repr s2.
Proof. unfold GOPCASignature_eq. by case_decide. Qed.

(** [==] is an equivalence relation on signatures, and signatures that are
    equal have the same hash. *)
Theorem GOPCASignature_eq_equivalence :
  (∀ s, GOPCASignature_eq (V:=V) enrichment_repr s (PySignature s) = true)
  ∧ (∀ s1 s2,
       GOPCASignature_eq (V:=V) enrichment_repr s1 (PySignature s2) = true →
       GOPCASignature_eq (V:=V) enrichment_repr s2 (PySignature s1) = true)
  ∧ (∀ s1 s2 s3,
       GOPCASignature_eq (V:=V) enrichment_repr s1 (PySignature s2) = true →
       GOPCASignature_eq (V:=V) enrichment_repr s2 (PySignature s3) = true →
       GOPCASignature_eq (V:=V) enrichment_repr s1 (PySignature s3) = true)
  ∧ (∀ s1 s2,
       GOPCASignature_eq (V:=V) enrichment_repr s1 (PySignature s2) = true →
       GOPCASignature_hash py_hash enrichment_repr s1
       = GOPCASignature_hash py_hash enrichment_repr s2).
Proof.
  split_and!.
  - intros s. by apply GOPCASignature_eq_true.
  - intros s1 s2. rewrite !GOPCASignature_eq_true. by intros ->.
  - intros s1 s2 s3. rewrite !GOPCASignature_eq_true. by intros -> ->.
  - intros s1 s2. rewrite GOPCASignature_eq_true. unfold GOPCASignature_hash. by intros ->.
Qed.
End SignatureEquivalence.

Lemma py_index_nonneg {A} (l : list A) (i : Z) x :
  (0 ≤ i)%Z → l !! Z.to_nat i = Some x → py_index l i = Returns x.
Proof.
  intros Hi Hx. unfold py_index. rewrite (proj2 (Z.leb_le 0 i) Hi).
  by apply getitem_Returns.
Qed.

(** The property [n] reads [ranks[k-1]] for the number [k] of genes: the
    rank at position [k-1] when there are at least [k >= 1] ranks; for a
    signature without genes the last rank, as [ranks[-1]] is; and
    IndexError when there are fewer than [k] ranks or none at all. *)
Theorem GOPCASignature_n_spec (self : GOPCASignature Enrichment) :
  let k := size (sig_genes self) in
  let ranks := enr_ranks (sig_enrichment self) in
  (1 ≤ k ≤ length ranks →
   ∃ r, ranks !! (k - 1) = Some r ∧ GOPCASignature_n self = Returns r)
  ∧ (k = 0 → ∀ r, last ranks = Some r → GOPCASignature_n self = Returns r)
  ∧ (length ranks < k ∨ ranks = [] → GOPCASignature_n self = Raises IndexError).
Proof.
  intros k ranks. unfold GOPCASignature_n, GOPCASignature_k. fold k. fold ranks.
  split_and!.
  - intros Hk. destruct (lookup_lt_is_Some_2 ranks (k - 1) ltac:(lia)) as [r Hr].
    exists r. split; [done|]. apply py_index_nonneg; [lia|].
    by replace (Z.to_nat (Z.of_nat k - 1)) with (k - 1) by lia.
  - intros -> r Hr. unfold py_index.
    change (Z.of_nat 0 - 1)%Z with (-1)%Z.
    destruct (0 <=? -1)%Z eqn:Hneg; [discriminate Hneg|clear Hneg].
    rewrite last_lookup in Hr.
    assert (length ranks ≠ 0) as Hne
      by (intros H0; rewrite H0 in Hr; by destruct ranks).
    rewrite (proj2 (Z.leb_le (- Z.of_nat (length ranks)) (-1))) by lia.
    apply getitem_Returns.
    by replace (Z.to_nat (Z.of_nat (length ranks) + -1)) with (pred (length ranks)) by lia.
  - intros Hk. unfold py_index.
    destruct (0 <=? Z.of_nat k - 1)%Z eqn:Hpos.
    + apply Z.leb_le in Hpos. unfold getitem.
      rewrite lookup_ge_None_2; [done|].
      destruct Hk as [Hk| ->]; [lia|simpl; lia].
    + apply Z.leb_gt in Hpos. assert (k = 0) as Hk0 by lia.
      destruct Hk as [Hk| ->]; [lia|]. rewrite Hk0. reflexivity.
Qed.

Lemma GOPCASignature_n_spec_witness :
  ∃ r, GOPCASignature_n
         (Signature {["a"; "b"]} 1 2%float
            {| enr_term := []; enr_k := 2; enr_K := 5; enr_N := 10;
               enr_ranks := [3; 7; 9]%Z; enr_pval := 0.5%float |} "GO")
       = Returns r.
Proof.
  destruct (proj1 (GOPCASignature_n_spec
                     (Signature {["a"; "b"]} 1 2%float
                        {| enr_term := []; enr_k := 2; enr_K := 5; enr_N := 10;
                           enr_ranks := [3; 7; 9]%Z; enr_pval := 0.5%float |} "GO")))
    as (r & _ & Hn).
  - vm_compute. lia.
  - by exists r.
Defined.

Lemma string_append_cons c (s1 s2 : string) : String c s1 +:+ s2 = String c (s1 +:+ s2).
Proof. reflexivity. Qed.

Lemma string_length_append (s1 s2 : string) :
  String.length (s1 +:+ s2) = String.length s1 + String.length s2.
Proof.
  induction s1 as [|c s1 IH]; [reflexivity|].
  rewrite string_append_cons. simpl. by rewrite IH.
Qed.

Lemma string_append_assoc (s1 s2 s3 : string) : (s1 +:+ s2) +:+ s3 = s1 +:+ s2 +:+ s3.
Proof.
  induction s1 as [|c s1 IH]; [reflexivity|].
  rewrite !string_append_cons. by rewrite IH.
Qed.

Lemma string_prefix_length (pat s : string) :
  String.prefix pat s = true → String.length pat ≤ String.length s.
Proof.
  revert s. induction pat as [|c pat IH]; intros s; [simpl; lia|].
  destruct s as [|d s]; simpl; [done|].
  destruct (ascii_dec c d); [|done]. intros H. apply IH in H. lia.
Qed.

Lemma string_length_substring (n : nat) (s : string) :
  String.length (substring 0 n s) = Nat.min n (String.length s).
Proof.
  revert n. induction s as [|c s IH]; intros [|n]; simpl; try done. by rewrite IH.
Qed.

Lemma str_replace_from_length (pat rep : string) (skip : nat) (s : string) :
  String.length rep ≤ String.length pat →
  String.length (str_replace_from pat rep skip s)
  ≤ String.length s - Nat.min skip (String.length s).
Proof.
  intros Hrep. revert skip. induction s as [|c s IH]; intros skip; [simpl; lia|].
  cbn [str_replace_from]. destruct skip as [|skip].
  - destruct (String.prefix pat (String c s)) eqn:Hp.
    + apply string_prefix_length in Hp. rewrite string_length_append.
      specialize (IH (String.length pat - 1)). simpl in Hp |- *. lia.
    + specialize (IH 0). simpl. lia.
  - specialize (IH skip). simpl. lia.
Qed.

Lemma str_replace_length (pat rep s : string) :
  String.length rep ≤ String.length pat →
  String.length (str_replace pat rep s) ≤ String.length s.
Proof.
  intros Hrep. pose proof (str_replace_from_length pat rep 0 s Hrep). unfold str_replace. lia.
Qed.

Lemma abbreviate_length (s : string) : String.length (abbreviate s) ≤ String.length s.
Proof.
  unfold abbreviate.
  assert (Forall (λ abb : string * string,
                    String.length abb.2 ≤ String.length abb.1) abbrev) as Hall
    by (repeat constructor; simpl; lia).
  revert s. induction Hall as [|abb l Habb _ IH]; intros s; simpl; [done|].
  etransitivity; [apply IH|]. by apply str_replace_length.
Qed.

(** The name [get_pretty_format] shows is the abbreviated term name, never
    longer than the term name itself; with [max_name_length >= 3] it has at
    most [max_name_length] characters; with [max_name_length] 1 or 2 a
    longer name is not cut to that length but comes out with
    [max_name_length] characters more; and the output of
    [get_pretty_format] is the namespace, this name and the details asked
    for (IndexError when the term has fewer than four entries). *)
Theorem get_pretty_format_name (self : GOPCASignature Enrichment)
    (omit_acc nitty_gritty : bool) (max_name_length : Z) :
  let term := enr_term (sig_enrichment self) in
  (length term < 4 →
   get_pretty_format self omit_acc nitty_gritty max_name_length = Raises IndexError)
  ∧ (∀ t0 t2 t3,
       term !! 0 = Some t0 → term !! 2 = Some t2 → term !! 3 = Some t3 →
       (∃ suffix,
          get_pretty_format self omit_acc nitty_gritty max_name_length
          = Returns (t2 +:+ ": " +:+ display_name max_name_length t3 +:+ suffix))
       ∧ String.length (abbreviate t3) ≤ String.length t3
       ∧ ((max_name_length ≤ 0)%Z → display_name max_name_length t3 = abbreviate t3)
       ∧ ((3 ≤ max_name_length)%Z →
          (Z.of_nat (String.length (display_name max_name_length t3))
           ≤ max_name_length)%Z)
       ∧ ((0 < max_name_length < 3)%Z →
          (max_name_length < Z.of_nat (String.length (abbreviate t3)))%Z →
          Z.of_nat (String.length (display_name max_name_length t3))
          = (Z.of_nat (String.length (abbreviate t3)) + max_name_length)%Z)).
Proof.
  intros term. split.
  - intros Hlen. assert (term !! 3 = None) as H3 by (apply lookup_ge_None_2; lia).
    unfold get_pretty_format. fold term. unfold getitem. rewrite H3. reflexivity.
  - intros t0 t2 t3 H0 H2 H3. split_and!.
    + unfold get_pretty_format. fold term.
      rewrite (getitem_Returns _ _ _ H3), bind_Returns.
      rewrite (getitem_Returns _ _ _ H2), bind_Returns.
      destruct omit_acc; cbn [negb].
      * rewrite bind_Returns. eexists. by rewrite !string_append_assoc.
      * rewrite (getitem_Returns _ _ _ H0), !bind_Returns.
        eexists. by rewrite !string_append_assoc.
    + apply abbreviate_length.
    + intros Hmax. unfold display_name.
      by rewrite (proj2 (Z.ltb_ge 0 max_name_length)) by lia.
    + intros Hmax. unfold display_name.
      destruct (0 <? max_name_length)%Z eqn:Hpos; cbn [andb]; [|lia].
      destruct (max_name_length <? Z.of_nat (String.length (abbreviate t3)))%Z eqn:Hlong.
      * apply Z.ltb_lt in Hlong. unfold py_slice_to.
        rewrite (proj2 (Z.ltb_ge (max_name_length - 3) 0)) by lia.
        rewrite string_length_append, string_length_substring. simpl. lia.
      * apply Z.ltb_ge in Hlong. lia.
    + intros Hmax Hlong. unfold display_name.
      rewrite (proj2 (Z.ltb_lt 0 max_name_length)) by lia.
      rewrite (proj2 (Z.ltb_lt _ _) Hlong). cbn [andb]. unfold py_slice_to.
      rewrite (proj2 (Z.ltb_lt (max_name_length - 3) 0)) by lia.
      rewrite string_length_append, string_length_substring. simpl. lia.
Qed.

(** [GOPCASignature.__init__] fails, with IndexError, only when no label is
    given and the term of the enrichment has fewer than four entries.  The
    signature built holds the genes as a set: [k] counts each gene once, and
    is the length of the gene list exactly when no gene is listed twice. *)
Theorem GOPCASignature_init_spec (genes : list string) (pc : Z) (mfe : float)
    (enrichment : Enrichment) (label : option string) :
  (label = None → length (enr_term enrichment) < 4 →
   GOPCASignature_init genes pc mfe enrichment label = Raises IndexError)
  ∧ (is_Some label ∨ 4 ≤ length (enr_term enrichment) →
     ∃ self,
       GOPCASignature_init genes pc mfe enrichment label = Returns self
       ∧ sig_pc self = pc ∧ sig_mfe self = mfe ∧ sig_enrichment self = enrichment
       ∧ (∀ l, label = Some l → sig_label self = l)
       ∧ (∀ g, g ∈ sig_genes self ↔ g ∈ genes)
       ∧ (GOPCASignature_k self ≤ Z.of_nat (length genes))%Z
       ∧ (GOPCASignature_k self = Z.of_nat (length genes) ↔ NoDup genes)).
Proof.
  assert (size (list_to_set genes : gset string) ≤ length genes
          ∧ (size (list_to_set genes : gset string) = length genes ↔ NoDup genes))
    as [Hle Hiff].
  { induction genes as [|g genes [IHle IHiff]].
    - change (list_to_set [] : gset string) with (∅ : gset string).
      rewrite size_empty. simpl. split; [lia|]. split; [constructor|done].
    - rewrite list_to_set_cons, size_union_alt, size_singleton.
      destruct (decide (g ∈ genes)) as [Hin|Hnin].
      + assert (list_to_set genes ∖ {[g]} ⊂ (list_to_set genes : gset string)) as Hsub.
        { apply subset_difference_elem_of. by apply elem_of_list_to_set. }
        apply subset_size in Hsub. simpl. split; [lia|].
        split; [lia|]. intros Hnd. apply NoDup_cons in Hnd as [Hnd _]. done.
      + assert (list_to_set genes ∖ {[g]} = (list_to_set genes : gset string)) as ->.
        { apply set_eq. intros x. rewrite elem_of_difference, elem_of_singleton,
            elem_of_list_to_set. split; [by intros [? _]|]. intros Hx. split; [done|].
          by intros ->. }
        simpl. split; [lia|]. rewrite NoDup_cons. split.
        * intros Hs. split; [done|]. apply IHiff. lia.
        * intros [_ Hnd]. apply IHiff in Hnd. lia. }
  split.
  - intros -> Hlen. unfold GOPCASignature_init.
    destruct (enr_term enrichment !! 2) as [t2|] eqn:H2.
    + rewrite (getitem_Returns _ _ _ H2), bind_Returns. unfold getitem.
      by rewrite lookup_ge_None_2 by lia.
    + unfold getitem. rewrite H2. reflexivity.
  - intros Hok.
    assert (∀ l self,
              self = Signature (list_to_set genes) pc mfe enrichment l →
              (∀ l', label = Some l' → l = l') →
              sig_pc self = pc ∧ sig_mfe self = mfe ∧ sig_enrichment self = enrichment
              ∧ (∀ l', label = Some l' → sig_label self = l')
              ∧ (∀ g, g ∈ sig_genes self ↔ g ∈ genes)
              ∧ (GOPCASignature_k self ≤ Z.of_nat (length genes))%Z
              ∧ (GOPCASignature_k self = Z.of_nat (length genes) ↔ NoDup genes))
      as Hfields.
    { intros l self -> Hlab. unfold GOPCASignature_k.
      cbn [sig_pc sig_mfe sig_enrichment sig_label sig_genes].
      split_and!; [done|done|done|exact Hlab| | |].
      - intros g. apply elem_of_list_to_set.
      - lia.
      - rewrite <-Hiff. lia. }
    destruct label as [l|].
    + unfold GOPCASignature_init. rewrite bind_Returns.
      eexists. split; [reflexivity|]. apply (Hfields l); [done|]. by intros l' [= ->].
    + destruct Hok as [[? Hs]|Hlen]; [done|].
      destruct (lookup_lt_is_Some_2 (enr_term enrichment) 2 ltac:(lia)) as [t2 H2].
      destruct (lookup_lt_is_Some_2 (enr_term enrichment) 3 ltac:(lia)) as [t3 H3].
      unfold GOPCASignature_init. cbv zeta.
      rewrite (getitem_Returns _ _ _ H2), bind_Returns.
      rewrite (getitem_Returns _ _ _ H3), !bind_Returns.
      eexists. split; [reflexivity|]. eapply Hfields; [done|]. by intros l'.
Qed.

(** ** The scores as a formula, and the robust calculator on a sorted gene list *)

Section SignatureSorted.
Context {num : Type} `{!Float64Ops num}.

Lemma index_of_found genes g :
  g ∈ genes → list_index genes g = Returns (index_of genes g) ∧ index_of genes g < length genes.
Proof.
  intros Hg. destruct (list_index_found genes g Hg) as (idx & Hidx & Hlt).
  unfold index_of. by rewrite Hidx.
Qed.

(** The score vector of [get_signature_expression] is, sample by sample,
    the mean over the member genes of their standardized expression: the
    row of each gene (at the first position of the gene in the gene list)
    centred by its mean and divided by its sample standard deviation. *)
Theorem get_signature_expression_formula genes (E : ndarray num) n sig_genes :
  well_shaped E (length genes) n →
  Forall (λ g, g ∈ genes) sig_genes →
  get_signature_expression genes E sig_genes
  = Returns (column_means
               ((λ g, standardized (row_of E n (index_of genes g))) <$> sig_genes) n).
Proof.
  intros HE Hall.
  rewrite (get_signature_expression_rows_formula genes E (length genes) n sig_genes
             (index_of genes <$> sig_genes) HE).
  - by rewrite <-list_fmap_compose.
  - apply Forall2_fmap_r, Forall_Forall2_diag.
    eapply Forall_impl; [exact Hall|]. intros g Hg. simpl. by apply index_of_found.
Qed.

(** On a gene list in ascending order the robust calculator reads, for
    every member gene, the row [genes.index] gives, as the other calculator
    does: its scores are the means over the member genes of these rows,
    centred by the median and divided by 1.4826 times the median absolute
    deviation. *)
Theorem get_signature_expression_robust_sorted genes (E : ndarray num) n sig_genes :
  StronglySorted str_le genes →
  well_shaped E (length genes) n →
  Forall (λ g, g ∈ genes) sig_genes →
  get_signature_expression_robust genes E sig_genes
  = Returns (column_means
               ((λ g, standardized_robust (row_of E n (index_of genes g))) <$> sig_genes) n).
Proof.
  intros Hs HE Hall.
  rewrite (get_signature_expression_robust_rows_formula genes E (length genes) n sig_genes
             (index_of genes <$> sig_genes) HE).
  - by rewrite <-list_fmap_compose.
  - apply Forall2_fmap_r, Forall_Forall2_diag.
    eapply Forall_impl; [exact Hall|]. intros g Hg. simpl.
    rewrite (bisect_index_sorted genes g Hs). by apply index_of_found.
Qed.
End SignatureSorted.

Lemma get_signature_expression_formula_witness :
  get_signature_expression ["a"; "b"] (NDArray [2; 3] [1; 2; 3; 4; 6; 11]%float) ["b"; "a"]
  = Returns (column_means
               ((λ g, standardized
                        (row_of (NDArray [2; 3] [1; 2; 3; 4; 6; 11]%float) 3
                           (index_of ["a"; "b"] g))) <$> ["b"; "a"]) 3).
Proof.
  apply (get_signature_expression_formula ["a"; "b"]
           (NDArray [2; 3] [1; 2; 3; 4; 6; 11]%float) 3 ["b"; "a"]).
  - split; reflexivity.
  - constructor; [apply elem_of_cons; right; apply elem_of_cons; by left|].
    constructor; [apply elem_of_cons; by left|]. constructor.
Defined.

Lemma get_signature_expression_robust_sorted_witness :
  get_signature_expression_robust ["a"; "b"] (NDArray [2; 3] [1; 2; 3; 4; 6; 11]%float)
    ["b"; "a"]
  = Returns (column_means
               ((λ g, standardized_robust
                        (row_of (NDArray [2; 3] [1; 2; 3; 4; 6; 11]%float) 3
                           (index_of ["a"; "b"] g))) <$> ["b"; "a"]) 3).
Proof.
  apply (get_signature_expression_robust_sorted ["a"; "b"]
           (NDArray [2; 3] [1; 2; 3; 4; 6; 11]%float) 3 ["b"; "a"]).
  - repeat (constructor; [|repeat (constructor; [reflexivity|]); constructor]). constructor.
  - split; reflexivity.
  - constructor; [apply elem_of_cons; right; apply elem_of_cons; by left|].
    constructor; [apply elem_of_cons; by left|]. constructor.
Defined.

(** ** [get_qvalues]: the counter of an entry *)

Section QValuesCounter.
Context {num : Type} `{!Float64Ops num} `{!OrderLaws num}.

Lemma visited_before_after pvals k l i j :
  argsort pvals !! k = Some i → argsort pvals !! l = Some j →
  (visited_before pvals i j = true ↔ k < l).
Proof.
  intros Hk Hl.
  destruct (argsort_lookup pvals k i Hk) as (p_i & _ & Hi).
  destruct (argsort_lookup pvals l j Hl) as (p_j & _ & Hj).
  unfold visited_before. rewrite Hi, Hj. split.
  - intros Hv. apply andb_true_iff in Hv as [Hle Hor]. apply negb_true_iff in Hle.
    destruct (decide (k < l)) as [|Hnlt]; [done|]. exfalso.
    destruct (decide (k = l)) as [->|Hne].
    + rewrite Hk in Hl. injection Hl as <-. rewrite Hi in Hj. injection Hj as <-.
      rewrite f_ltb_irrefl, Nat.ltb_irrefl in Hor. done.
    + assert (l < k) as Hlk by lia.
      destruct (argsort_ascending pvals l k j i p_j p_i Hl Hk Hj Hi Hlk) as [Hji Hidx].
      simpl in Hji, Hidx. specialize (Hidx Hle). unfold f_le in Hji. rewrite Hji in Hor.
      apply Nat.ltb_lt in Hor. lia.
  - intros Hkl.
    destruct (argsort_ascending pvals k l i j p_i p_j Hk Hl Hi Hj Hkl) as [Hij Hidx].
    simpl in Hij, Hidx. unfold f_le in Hij. rewrite Hij. simpl.
    destruct (f_ltb p_i p_j) eqn:Hlt; [done|]. simpl. apply Nat.ltb_lt. by apply Hidx.
Qed.

(** The counter [s] of an entry is one more than the number of entries
    that have a larger p-value, or an equal p-value at a later position:
    its candidate is [pi_zero * p * n] divided by this number. *)
Theorem get_qvalues_counter (pvals : list num) (pi_zero : num) i s q :
  (i, s, q) ∈ visit_steps pvals pi_zero →
  s = 1 + length (filter (λ j, visited_before pvals i j = true) (seq 0 (length pvals))).
Proof.
  intros Hin. apply visit_steps_position in Hin as [Hs Hk].
  set (k := length pvals - s) in *.
  assert (filter (λ j, visited_before pvals i j = true) (seq 0 (length pvals))
          ≡ₚ drop (S k) (argsort pvals)) as Hperm.
  { apply NoDup_Permutation.
    - apply NoDup_filter, NoDup_seq.
    - eapply sublist_NoDup; [apply argsort_NoDup|apply sublist_drop].
    - intros j. rewrite list_elem_of_filter, elem_of_seq. split.
      + intros [Hv [_ Hj]]. destruct (argsort_position pvals j Hj) as [l Hl].
        apply (visited_before_after pvals k l i j Hk Hl) in Hv.
        apply list_elem_of_lookup. exists (l - S k). rewrite lookup_drop.
        by replace (S k + (l - S k)) with l by lia.
      + intros Hj. apply list_elem_of_lookup in Hj as [l Hl]. rewrite lookup_drop in Hl.
        split.
        * apply (visited_before_after pvals k (S k + l) i j Hk Hl). lia.
        * split; [lia|]. pose proof (argsort_lt pvals) as Hlt.
          rewrite Forall_lookup in Hlt. simpl. by apply (Hlt _ _ Hl). }
  rewrite Hperm, length_drop, argsort_length. unfold k. lia.
Qed.
End QValuesCounter.

Lemma get_qvalues_counter_witness :
  ∃ q : R,
    (1, 2, q) ∈ visit_steps [(1/2)%R; (1/4)%R] 1%R
    ∧ 2 = 1 + length (filter (λ j, visited_before [(1/2)%R; (1/4)%R] 1 j = true) (seq 0 2)).
Proof.
  assert (∃ q : R, (1, 2, q) ∈ visit_steps [(1/2)%R; (1/4)%R] 1%R) as [q Hq].
  { unfold visit_steps, argsort. cbn -[f_ltb candidate py_min].
    destruct (f_ltb (1/4)%R (1/2)%R) eqn:Hlt.
    - cbn -[f_ltb candidate py_min]. eexists. apply elem_of_cons. right.
      apply elem_of_cons. left. reflexivity.
    - apply real_ltb_false in Hlt. exfalso. lra. }
  exists q. split; [exact Hq|].
  exact (get_qvalues_counter (num:=R) [(1/2)%R; (1/4)%R] 1%R 1 2 q Hq).
Defined.
